(** * The employee system of the Go exercises

    A shallow embedding of the concurrent employee system, in its last
    variant: the one with validated input, a buffered learning channel, a
    cancellation context and a [done] channel.  The development covers the
    record store ([AddEmployee], [UpdateEmployee], [GetEmployee],
    [UpdatePerformance], [GetAllEmployees]), [Shutdown], and the goroutine
    [selfLearning] that aggregates the statistics of a position.

    Modelling conventions.
    - Go [int] identifiers are [Z]; [float64] is the primitive binary64
      type [float], so that every sum and quotient rounds as in the program.
    - [map[int]Employee], [map[int][]float64] and [map[string]PositionStats]
      are [gmap]s; [range] over a map visits the entries in an order chosen
      by the runtime, which the model takes as an explicit enumeration.
    - [time.Now()] is an input of each operation.
    - Every method returns its result, the system after the call and the
      sequence of synchronisation events it performed.
    - The goroutine is a component of the system state; the executions of
      the whole are the paths of a step relation.
    - The functions of the Go library on text are parameters. *)

From Stdlib Require Import ZArith Floats.
From Stdlib Require Uint63.
From stdpp Require Import gmap strings list relations.

Set Default Proof Using "Type".

(** ** Floating point *)

Module F64.

(** The conversion of an integer in [0, 2^63) to [float64]. *)
Definition of_Z (z : Z) : float := PrimFloat.of_uint63 (Uint63.of_Z z).

(** [float64(n)] for a length or a counter [n]. *)
Definition of_nat (n : nat) : float := of_Z (Z.of_nat n).

(** [total := 0.0; for _, r := range l { total += r }]. *)
Definition sum (l : list float) : float :=
  fold_left PrimFloat.add l 0%float.

(** The comparison [x == y] of Go on [float64]. *)
Definition eq (x y : float) : Prop := PrimFloat.eqb x y = true.

(** [lo <= x && x <= hi]. *)
Definition between (lo hi x : float) : Prop :=
  PrimFloat.leb lo x = true ∧ PrimFloat.leb x hi = true.
End F64.

(** ** Data model *)

Definition Time := Z.
Bind Scope Z_scope with Time.

(** Untyped integer constants of the program. *)
Definition MinSalary : Z := 20000.
Definition MaxSalary : Z := 2000000.

Record PositionStats := {
  AvgPerformance : float;
  EmployeeCount : nat;
  TotalSalary : float;
  StatsLastUpdated : Time
}.

Record Employee := {
  ID : Z;
  Name : string;
  Position : string;
  Salary : float;
  Performance : float;
  LastUpdated : Time
}.

(** The zero value [Employee{}]. *)
Definition Employee_zero : Employee :=
  {| ID := 0; Name := ""; Position := ""; Salary := 0%float;
     Performance := 0%float; LastUpdated := 0%Z |}.

Definition set_LastUpdated (t : Time) (e : Employee) : Employee :=
  {| ID := ID e; Name := Name e; Position := Position e; Salary := Salary e;
     Performance := Performance e; LastUpdated := t |}.

Definition set_Performance (p : float) (e : Employee) : Employee :=
  {| ID := ID e; Name := Name e; Position := Position e; Salary := Salary e;
     Performance := p; LastUpdated := LastUpdated e |}.

(** The error values of the program.  [Errorf] is a value built by
    [fmt.Errorf] from a format and its arguments. *)
Inductive error :=
| ErrEmployeeNotFound
| ErrInvalidID
| ErrDuplicateID
| ErrInvalidName
| ErrInvalidPosition
| ErrInvalidSalary
| ErrInvalidRating
| Errorf (format : string) (args : list Z).

(** The error classes of the specification's taxonomy. *)
Inductive error_class := InvalidArgument | NotFound | AlreadyExists.

Definition classify (e : error) : error_class :=
  match e with
  | ErrEmployeeNotFound => NotFound
  | ErrDuplicateID => AlreadyExists
  | ErrInvalidID | ErrInvalidName | ErrInvalidPosition
  | ErrInvalidSalary | ErrInvalidRating | Errorf _ _ => InvalidArgument
  end.

(** What the program prints, kept as values rather than formatted text. *)
Inductive output :=
| WarnBusy (name : string)
| LearningUpdate (position : string) (count : nat) (avgPerformance : float)
                 (avgSalary : option float) (lastUpdated : Time).

(** Control state of the goroutine started by [NewEmployeeSystem]: waiting
    in its [select], holding a received record, or returned. *)
Inductive task_state :=
| AtSelect
| Received (emp : Employee)
| Returned.

Record EmployeeSystem := {
  employees : gmap Z Employee;
  performance : gmap Z (list float);
  positionStats : gmap string PositionStats;
  learningChan : list Employee;   (* buffered, capacity [chanCap] *)
  done : bool;                    (* [true] once the channel is closed *)
  ctx_done : bool;                (* [true] once [cancel] has been called *)
  task : task_state;
  stdout : list output
}.

Definition chanCap : nat := 100.

(** Synchronisation events, in program order. *)
Inductive event :=
| EvLock | EvUnlock | EvRLock | EvRUnlock
| EvSend (emp : Employee)      (* the send case of a [select] fired *)
| EvTimeout (emp : Employee)   (* the [time.After] case fired instead *)
| EvSkip (emp : Employee).     (* the [default] case fired instead *)

Definition is_publish (ev : event) : bool :=
  match ev with
  | EvSend _ | EvTimeout _ | EvSkip _ => true
  | _ => false
  end.

(** ** Library functions of Go used by the validation *)

(** [strings.TrimSpace], the code points a [range] loop yields for a string,
    [unicode.IsLetter] and [unicode.IsSpace] belong to the Go library; the
    development is parametric in them. *)
Class GoText := {
  TrimSpace : string → string;
  runes : string → list Z;
  IsLetter : Z → bool;
  IsSpace : Z → bool
}.

(** ** Validation *)

Section Validation.
Context {text : GoText}.

Definition validateName (name : string) : option error :=
  let name := TrimSpace name in
  if (String.length name <? 2) || (50 <? String.length name) then
    Some ErrInvalidName
  else if forallb (λ r, IsLetter r || IsSpace r) (runes name) then None
  else Some ErrInvalidName.

End Validation.

Definition salaryRangeError : error :=
  Errorf "salary must be between %.2f and %.2f" [MinSalary; MaxSalary].

Definition validateSalary (salary : float) : option error :=
  if (PrimFloat.ltb salary (F64.of_Z MinSalary)
      || PrimFloat.ltb (F64.of_Z MaxSalary) salary)%bool
  then Some salaryRangeError
  else None.

Definition validateRating (rating : float) : option error :=
  if (PrimFloat.ltb rating 0 || PrimFloat.ltb 5 rating)%bool
  then Some ErrInvalidRating
  else None.

(** ** Construction and field updates *)

(** The goroutine is started before [NewEmployeeSystem] returns, so the new
    system has its task waiting in the [select]. *)
Definition NewEmployeeSystem : EmployeeSystem :=
  {| employees := ∅; performance := ∅; positionStats := ∅;
     learningChan := []; done := false; ctx_done := false;
     task := AtSelect; stdout := [] |}.

Definition set_employees (m : gmap Z Employee) (es : EmployeeSystem) :=
  {| employees := m; performance := performance es;
     positionStats := positionStats es; learningChan := learningChan es;
     done := done es; ctx_done := ctx_done es; task := task es;
     stdout := stdout es |}.

Definition set_performance (m : gmap Z (list float)) (es : EmployeeSystem) :=
  {| employees := employees es; performance := m;
     positionStats := positionStats es; learningChan := learningChan es;
     done := done es; ctx_done := ctx_done es; task := task es;
     stdout := stdout es |}.

Definition set_positionStats (m : gmap string PositionStats)
    (es : EmployeeSystem) :=
  {| employees := employees es; performance := performance es;
     positionStats := m; learningChan := learningChan es;
     done := done es; ctx_done := ctx_done es; task := task es;
     stdout := stdout es |}.

Definition set_learningChan (q : list Employee) (es : EmployeeSystem) :=
  {| employees := employees es; performance := performance es;
     positionStats := positionStats es; learningChan := q;
     done := done es; ctx_done := ctx_done es; task := task es;
     stdout := stdout es |}.

Definition set_done (b : bool) (es : EmployeeSystem) :=
  {| employees := employees es; performance := performance es;
     positionStats := positionStats es; learningChan := learningChan es;
     done := b; ctx_done := ctx_done es; task := task es;
     stdout := stdout es |}.

Definition set_task (t : task_state) (es : EmployeeSystem) :=
  {| employees := employees es; performance := performance es;
     positionStats := positionStats es; learningChan := learningChan es;
     done := done es; ctx_done := ctx_done es; task := t;
     stdout := stdout es |}.

Definition print (o : output) (es : EmployeeSystem) :=
  {| employees := employees es; performance := performance es;
     positionStats := positionStats es; learningChan := learningChan es;
     done := done es; ctx_done := ctx_done es; task := task es;
     stdout := stdout es ++ [o] |}.

(** ** Publishing on the learning channel *)

Definition has_room (es : EmployeeSystem) : bool :=
  length (learningChan es) <? chanCap.

(** [select { case es.learningChan <- emp: case <-time.After(100ms): ... }].
    With room in the buffer the send fires at once.  With a full buffer it
    fires only if the goroutine, waiting in its own [select], takes the
    oldest record before the timer expires ([woke]); otherwise the timer
    fires and the warning is printed. *)
Definition send_or_timeout (woke : bool) (emp : Employee)
    (es : EmployeeSystem) : EmployeeSystem * event :=
  if has_room es then
    (set_learningChan (learningChan es ++ [emp]) es, EvSend emp)
  else
    match woke, task es, learningChan es with
    | true, AtSelect, e :: q =>
        (set_task (Received e) (set_learningChan (q ++ [emp]) es), EvSend emp)
    | _, _, _ => (print (WarnBusy (Name emp)) es, EvTimeout emp)
    end.

(** [select { case es.learningChan <- emp: default: }]. *)
Definition send_or_skip (emp : Employee) (es : EmployeeSystem)
    : EmployeeSystem * event :=
  if has_room es then
    (set_learningChan (learningChan es ++ [emp]) es, EvSend emp)
  else (es, EvSkip emp).

(** ** The record store *)

(** The result of a method: its return value, the system after the call and
    the synchronisation events of the call. *)
Record result (A : Type) := Result {
  ret : A;
  post : EmployeeSystem;
  trace : list event
}.
Arguments Result {A} _ _ _.
Arguments ret {A} _.
Arguments post {A} _.
Arguments trace {A} _.

(** [es.mutex.Lock(); defer es.mutex.Unlock()] around the rest of a body. *)
Definition locked {A} (body : EmployeeSystem → result A)
    (es : EmployeeSystem) : result A :=
  let r := body es in
  Result (ret r) (post r) (EvLock :: trace r ++ [EvUnlock]).

(** [es.mutex.RLock(); defer es.mutex.RUnlock()] around the rest of a body. *)
Definition rlocked {A} (body : EmployeeSystem → result A)
    (es : EmployeeSystem) : result A :=
  let r := body es in
  Result (ret r) (post r) (EvRLock :: trace r ++ [EvRUnlock]).

Definition exists_employee (id : Z) (es : EmployeeSystem) : bool :=
  bool_decide (is_Some (employees es !! id)).

(** [es.performance[id]], the nil slice for an absent key. *)
Definition history (id : Z) (es : EmployeeSystem) : list float :=
  default [] (performance es !! id).

Section Store.
Context {text : GoText}.

Definition AddEmployee (now : Time) (woke : bool) (emp : Employee)
    (es : EmployeeSystem) : result (option error) :=
  if (ID emp <? 100)%Z then Result (Some ErrInvalidID) es []
  else match validateName (Name emp) with
  | Some err => Result (Some err) es []
  | None =>
  match validateSalary (Salary emp) with
  | Some err => Result (Some err) es []
  | None =>
    locked (λ es,
      if exists_employee (ID emp) es then Result (Some ErrDuplicateID) es []
      else
        let emp := set_LastUpdated now emp in
        let es := set_employees (<[ID emp := emp]> (employees es)) es in
        let es := set_performance (<[ID emp := []]> (performance es)) es in
        let '(es, ev) := send_or_timeout woke emp es in
        Result None es [ev]) es
  end end.

Definition UpdateEmployee (now : Time) (emp : Employee)
    (es : EmployeeSystem) : result (option error) :=
  if (ID emp <? 100)%Z then Result (Some ErrInvalidID) es []
  else match validateName (Name emp) with
  | Some err => Result (Some err) es []
  | None =>
  match validateSalary (Salary emp) with
  | Some err => Result (Some err) es []
  | None =>
    locked (λ es,
      if negb (exists_employee (ID emp) es) then
        Result (Some ErrEmployeeNotFound) es []
      else
        let emp := set_LastUpdated now emp in
        let es := set_employees (<[ID emp := emp]> (employees es)) es in
        Result None es []) es
  end end.

End Store.

Definition GetEmployee (id : Z) (es : EmployeeSystem)
    : result (Employee * option error) :=
  rlocked (λ es,
    match employees es !! id with
    | Some emp => Result (emp, None) es []
    | None => Result (Employee_zero, Some ErrEmployeeNotFound) es []
    end) es.

(** The quotient [total / float64(len(l))] of the rating loop. *)
Definition mean (l : list float) : float :=
  (F64.sum l / F64.of_nat (length l))%float.

Definition UpdatePerformance (now : Time) (id : Z) (rating : float)
    (es : EmployeeSystem) : result (option error) :=
  match validateRating rating with
  | Some err => Result (Some err) es []
  | None =>
    locked (λ es,
      match employees es !! id with
      | None => Result (Some ErrEmployeeNotFound) es []
      | Some emp =>
          let es :=
            set_performance (<[id := history id es ++ [rating]]> (performance es)) es in
          let emp := set_Performance (mean (history id es)) emp in
          let emp := set_LastUpdated now emp in
          let es := set_employees (<[id := emp]> (employees es)) es in
          let '(es, ev) := send_or_skip emp es in
          Result None es [ev]
      end) es
  end.

(** [range es.employees] visits every entry once, in an order of the
    runtime's choosing. *)
Definition enumerates (order : list Employee) (es : EmployeeSystem) : Prop :=
  order ≡ₚ (map_to_list (employees es)).*2.

(** [GetAllEmployees] copies the records in the order [order] in which the
    [range] loop visits them. *)
Definition GetAllEmployees (order : list Employee) (es : EmployeeSystem)
    : result (list Employee) :=
  rlocked (λ es, Result (fold_left (λ acc emp, acc ++ [emp]) order []) es []) es.

(** ** Shutdown *)

Inductive outcome (A : Type) :=
| Ok (a : A)
| Panic (msg : string).
Arguments Ok {A} _.
Arguments Panic {A} _.

(** [close(es.done)]: closing a closed channel is a run-time panic. *)
Definition Shutdown (es : EmployeeSystem) : outcome EmployeeSystem :=
  if done es then Panic "close of closed channel"
  else Ok (set_done true es).

(** Choice 6 of the menu of [main]: [system.Shutdown(); return], after which
    the deferred [system.Shutdown()] of [main] runs. *)
Definition main_exit (es : EmployeeSystem) : outcome EmployeeSystem :=
  match Shutdown es with
  | Ok es => Shutdown es
  | Panic msg => Panic msg
  end.

(** ** The aggregation goroutine *)

(** The loop [for _, e := range es.employees] of [selfLearning], over the
    records in visiting order: the sums of the performances and of the
    salaries of the records of one position, and their number. *)
Definition scan (position : string) (order : list Employee)
    : float * nat * float :=
  fold_left
    (λ '(totalPerf, count, totalSalary) e,
       if String.eqb (Position e) position then
         ((totalPerf + Performance e)%float, S count,
          (totalSalary + Salary e)%float)
       else (totalPerf, count, totalSalary))
    order (0%float, 0, 0%float).

(** One iteration of [selfLearning] for a received record [emp]: the
    critical section, then the report. *)
Definition learn (now : Time) (order : list Employee) (emp : Employee)
    (es : EmployeeSystem) : result PositionStats :=
  let r :=
    locked (λ es,
      let stats :=
        {| AvgPerformance := 0; EmployeeCount := 0; TotalSalary := 0;
           StatsLastUpdated := now |} in
      let '(totalPerf, count, totalSalary) := scan (Position emp) order in
      if 0 <? count then
        let stats :=
          {| AvgPerformance := totalPerf / F64.of_nat count;
             EmployeeCount := count; TotalSalary := totalSalary;
             StatsLastUpdated := now |} in
        Result stats
          (set_positionStats (<[Position emp := stats]> (positionStats es)) es)
          []
      else Result stats es []) es in
  let '(_, count, totalSalary) := scan (Position emp) order in
  let avgSalary :=
    if 0 <? count then Some (totalSalary / F64.of_nat count)%float else None in
  Result (ret r)
    (set_task AtSelect
       (print (LearningUpdate (Position emp) count (AvgPerformance (ret r))
                 avgSalary (StatsLastUpdated (ret r))) (post r)))
    (trace r).

(** ** Executions *)

(** One step of the whole system: a call of a caller, or a move of the
    goroutine.  A critical section is one step, since the mutex serialises
    them; the receive of the goroutine happens outside the mutex.  A call
    that panics has no successor. *)
Inductive step {text : GoText} : EmployeeSystem → EmployeeSystem → Prop :=
| step_AddEmployee now woke emp es :
    step es (post (AddEmployee now woke emp es))
| step_UpdateEmployee now emp es :
    step es (post (UpdateEmployee now emp es))
| step_UpdatePerformance now id rating es :
    step es (post (UpdatePerformance now id rating es))
| step_GetEmployee id es :
    step es (post (GetEmployee id es))
| step_GetAllEmployees order es :
    enumerates order es →
    step es (post (GetAllEmployees order es))
| step_Shutdown es es' :
    Shutdown es = Ok es' →
    step es es'
| step_receive es e q :
    task es = AtSelect →
    learningChan es = e :: q →
    step es (set_task (Received e) (set_learningChan q es))
| step_learn now order e es :
    task es = Received e →
    enumerates order es →
    step es (post (learn now order e es))
| step_return es :
    task es = AtSelect →
    ctx_done es = true →
    step es (set_task Returned es).

Definition reachable {text : GoText} (es : EmployeeSystem) : Prop :=
  rtc step NewEmployeeSystem es.

(** ** An instance of the library functions for ASCII text *)

Module Ascii7.

Definition code (a : Ascii.ascii) : Z := Z.of_N (Ascii.N_of_ascii a).

(** The ASCII members of Go's white space: tab, line feed, vertical tab,
    form feed, carriage return and space. *)
Definition is_space (r : Z) : bool :=
  ((9 <=? r) && (r <=? 13) || (r =? 32))%Z.

Definition is_letter (r : Z) : bool :=
  ((65 <=? r) && (r <=? 90) || (97 <=? r) && (r <=? 122))%Z.

Fixpoint drop_space (l : list Ascii.ascii) : list Ascii.ascii :=
  match l with
  | a :: l' => if is_space (code a) then drop_space l' else l
  | [] => []
  end.

Definition trim (s : string) : string :=
  String.string_of_list_ascii
    (rev (drop_space (rev (drop_space (String.list_ascii_of_string s))))).

Definition code_points (s : string) : list Z :=
  map code (String.list_ascii_of_string s).

End Ascii7.

(** On strings of ASCII characters these are Go's [strings.TrimSpace], the
    code points of a [range] loop, [unicode.IsLetter] and
    [unicode.IsSpace]. *)
Definition AsciiText : GoText :=
  {| TrimSpace := Ascii7.trim; runes := Ascii7.code_points;
     IsLetter := Ascii7.is_letter; IsSpace := Ascii7.is_space |}.

(** ** Vocabulary of the properties *)

(** The record [UpdatePerformance] stores for [emp] after appending
    [rating] to the history [h]. *)
Definition rated (now : Time) (h : list float) (rating : float)
    (emp : Employee) : Employee :=
  set_LastUpdated now (set_Performance (mean (h ++ [rating])) emp).

(** The arguments [AddEmployee] and [UpdateEmployee] reject before they
    take the lock. *)
Definition rejected {text : GoText} (emp : Employee) : Prop :=
  (ID emp < 100)%Z ∨ validateName (Name emp) ≠ None ∨
  PrimFloat.ltb (Salary emp) 20000 = true ∨
  PrimFloat.ltb 2000000 (Salary emp) = true.

(** A call ends with an error of the class [c]. *)
Definition fails_with (r : result (option error)) (c : error_class) : Prop :=
  ∃ err, ret r = Some err ∧ classify err = c.

(** The reading of C9: in the trace of a call, an unlock comes before every
    attempt to publish. *)
Definition publishes_after_unlock (tr : list event) : Prop :=
  ∀ i ev, tr !! i = Some ev → is_publish ev = true →
    ∃ j, j < i ∧ tr !! j = Some EvUnlock.

(** What the code does: every attempt to publish has the lock taken before
    it and no unlock until after it. *)
Definition publishes_under_lock (tr : list event) : Prop :=
  ∀ i ev, tr !! i = Some ev → is_publish ev = true →
    (∃ j, j < i ∧ tr !! j = Some EvLock) ∧
    (∀ j, j < i → tr !! j ≠ Some EvUnlock) ∧
    (∃ k, i < k ∧ tr !! k = Some EvUnlock).

(** The score the specification gives a history: its mean, and zero while
    it is empty. *)
Definition score (h : list float) : float :=
  match h with
  | [] => 0%float
  | _ :: _ => mean h
  end.

(** The invariant of C2: every stored record carries the score of the
    history of its identifier. *)
Definition scores_match (es : EmployeeSystem) : Prop :=
  ∀ id emp, employees es !! id = Some emp →
    Performance emp = score (history id es).

(** The records of position [p] among [l], in the order of [l]. *)
Definition members (p : string) (l : list Employee) : list Employee :=
  filter (λ e, Position e = p) l.

(** The records of the store, in the order of [map_to_list]. *)
Definition stored (es : EmployeeSystem) : list Employee :=
  (map_to_list (employees es)).*2.

(** The reading of C6: after the event for [emp] is processed at time
    [now], the statistics of its position are a snapshot of that time whose
    count is the number of stored records of the position. *)
Definition replaces_statistics (now : Time) (order : list Employee)
    (emp : Employee) (es : EmployeeSystem) : Prop :=
  ∃ st, positionStats (post (learn now order emp es)) !! Position emp = Some st
    ∧ EmployeeCount st = length (members (Position emp) (stored es))
    ∧ StatsLastUpdated st = now.

(** A number that is neither infinite nor a NaN. *)
Definition SFfinite (a : spec_float) : Prop :=
  match a with
  | S754_zero _ | S754_finite _ _ _ => True
  | S754_infinity _ | S754_nan => False
  end.

(** ** The scenario of the specification *)

(** Closed statements about concrete runs use the ASCII instance. *)
#[local] Existing Instance AsciiText.

Module Scenario.

(** [Employee{ID: 101, Name: "Ann", Position: "Lead", Salary: 60000}]. *)
Definition ann : Employee :=
  {| ID := 101; Name := "Ann"; Position := "Lead"; Salary := 60000;
     Performance := 0; LastUpdated := 0 |}.

Definition created : EmployeeSystem :=
  post (AddEmployee 1 false ann NewEmployeeSystem).

Definition rated_once : EmployeeSystem :=
  post (UpdatePerformance 2 101 4 created).

Definition rated_twice : EmployeeSystem :=
  post (UpdatePerformance 3 101 5 rated_once).

(** A system whose learning channel is full. *)
Definition saturated : EmployeeSystem :=
  set_learningChan (replicate chanCap ann) created.

(** The record as stored by [AddEmployee] at time 1. *)
Definition ann1 : Employee := set_LastUpdated 1 ann.

(** The goroutine takes the record from the channel and computes the
    statistics of "Lead" at time 2. *)
Definition taken : EmployeeSystem :=
  set_task (Received ann1) (set_learningChan [] created).

Definition counted : EmployeeSystem := post (learn 2 [ann1] ann1 taken).

(** A rating at time 3 publishes the record, still of position "Lead"; an
    update at time 4 then moves the employee to another position. *)
Definition ann4 : Employee := rated 3 [] 4 ann1.

Definition engineer : Employee :=
  {| ID := 101; Name := "Ann"; Position := "Engineer"; Salary := 60000;
     Performance := 0; LastUpdated := 0 |}.

Definition moved : EmployeeSystem :=
  post (UpdateEmployee 4 engineer (post (UpdatePerformance 3 101 4 counted))).

(** The goroutine takes the published record. *)
Definition taken_again : EmployeeSystem :=
  set_task (Received ann4) (set_learningChan [] moved).

End Scenario.

(** ** Vocabulary of the further properties *)

(** A record fit to be stored under the identifier [id]. *)
Definition valid_record {text : GoText} (id : Z) (e : Employee) : Prop :=
  ID e = id ∧ (100 ≤ id)%Z ∧ validateName (Name e) = None ∧
  validateSalary (Salary e) = None.

(** Every record is fit for its key, and the identifiers with a history are
    those with a record. *)
Definition store_well_formed {text : GoText} (es : EmployeeSystem) : Prop :=
  (∀ id e, employees es !! id = Some e → valid_record id e) ∧
  (∀ id, is_Some (performance es !! id) ↔ is_Some (employees es !! id)).

(** The events published and not yet processed, oldest first: the record
    the goroutine holds, then the contents of the channel. *)
Definition pending (es : EmployeeSystem) : list Employee :=
  match task es with
  | Received e => e :: learningChan es
  | _ => learningChan es
  end.

(** The system a successful [AddEmployee] hands to the send. *)
Definition added (now : Time) (emp : Employee) (es : EmployeeSystem)
    : EmployeeSystem :=
  set_performance (<[ID emp := []]> (performance es))
    (set_employees (<[ID emp := set_LastUpdated now emp]> (employees es)) es).

(** The system a successful [UpdatePerformance] hands to the send. *)
Definition appended (now : Time) (id : Z) (rating : float) (emp : Employee)
    (es : EmployeeSystem) : EmployeeSystem :=
  set_employees
    (<[id := rated now (history id es) rating emp]> (employees es))
    (set_performance (<[id := history id es ++ [rating]]> (performance es)) es).

(** A run of ratings of one identifier, each at its own time. *)
Fixpoint rate_all (id : Z) (ratings : list (Time * float))
    (es : EmployeeSystem) : EmployeeSystem :=
  match ratings with
  | [] => es
  | (now, rating) :: rest =>
      rate_all id rest (post (UpdatePerformance now id rating es))
  end.

(** ** Three employees of one position *)

Module Trio.

Definition dev (id : Z) (name : string) : Employee :=
  {| ID := id; Name := name; Position := "Dev"; Salary := 60000;
     Performance := 0; LastUpdated := 0 |}.

(** Three records are added, then rated 0.1, 0.2 and 0.3 (the binary64
    numbers nearest to these decimals). *)
Definition hired : EmployeeSystem :=
  post (AddEmployee 3 false (dev 103 "Cid")
    (post (AddEmployee 2 false (dev 102 "Bob")
      (post (AddEmployee 1 false (dev 101 "Ann") NewEmployeeSystem))))).

Definition rated_all : EmployeeSystem :=
  post (UpdatePerformance 6 103 0x1.3333333333333p-2
    (post (UpdatePerformance 5 102 0x1.999999999999ap-3
      (post (UpdatePerformance 4 101 0x1.999999999999ap-4 hired))))).

(** The stored records. *)
Definition ann : Employee := rated 4 [] 0x1.999999999999ap-4
                               (set_LastUpdated 1 (dev 101 "Ann")).
Definition bob : Employee := rated 5 [] 0x1.999999999999ap-3
                               (set_LastUpdated 2 (dev 102 "Bob")).
Definition cid : Employee := rated 6 [] 0x1.3333333333333p-2
                               (set_LastUpdated 3 (dev 103 "Cid")).

(** The goroutine has taken the oldest event, the first [AddEmployee]. *)
Definition event : Employee := set_LastUpdated 1 (dev 101 "Ann").

Definition taken : EmployeeSystem :=
  set_task (Received event)
    (set_learningChan (tail (learningChan rated_all)) rated_all).

End Trio.

(** * Properties *)

(** ** Facts about binary64 *)

Section Float.

Lemma SFcompare_antisym (a b : spec_float) :
  SFcompare b a = CompOpp <$> SFcompare a b.
Proof.
  destruct a as [sa|sa| |sa ma ea], b as [sb|sb| |sb mb eb]; simpl;
    try reflexivity;
    try (destruct sa; reflexivity); try (destruct sb; reflexivity);
    try (destruct sa, sb; reflexivity).
  pose proof (Pos.compare_cont_antisym ma mb Eq) as Hm. simpl in Hm.
  destruct sa, sb; simpl; try reflexivity;
    rewrite (Z.compare_antisym eb ea);
    destruct (eb ?= ea)%Z eqn:E; simpl; try reflexivity;
    rewrite <- Hm; try reflexivity;
    destruct (Pos.compare_cont Eq ma mb); reflexivity.
Qed.

(** [a <= b] excludes [b < a]. *)
Lemma leb_not_ltb (a b : float) :
  PrimFloat.leb a b = true → PrimFloat.ltb b a = false.
Proof.
  rewrite leb_spec, ltb_spec. unfold SFleb, SFltb.
  rewrite (SFcompare_antisym (Prim2SF a) (Prim2SF b)).
  destruct (SFcompare (Prim2SF a) (Prim2SF b)) as [[]|]; simpl; congruence.
Qed.

(** *** Rounding never produces a NaN from a non-negative mantissa *)

Lemma shr_1_nonneg (mrs : shr_record) :
  (0 ≤ shr_m mrs)%Z → (0 ≤ shr_m (shr_1 mrs))%Z.
Proof.
  destruct mrs as [m r s]. simpl.
  destruct m as [|[p|p|]|p]; simpl; lia.
Qed.

Lemma iter_pos_nonneg (p : positive) (mrs : shr_record) :
  (0 ≤ shr_m mrs)%Z → (0 ≤ shr_m (SpecFloat.iter_pos shr_1 p mrs))%Z.
Proof.
  revert mrs. induction p as [p IH|p IH|]; intros mrs Hm; simpl.
  - apply IH, IH, shr_1_nonneg, Hm.
  - apply IH, IH, Hm.
  - apply shr_1_nonneg, Hm.
Qed.

Lemma shr_nonneg (mrs : shr_record) (e n : Z) :
  (0 ≤ shr_m mrs)%Z → (0 ≤ shr_m (shr mrs e n).1)%Z.
Proof.
  intros Hm. unfold shr. destruct n; simpl; try exact Hm.
  apply iter_pos_nonneg, Hm.
Qed.

Lemma shr_fexp_nonneg (prec emax m e : Z) (l : location) :
  (0 ≤ m)%Z → (0 ≤ shr_m (shr_fexp prec emax m e l).1)%Z.
Proof.
  intros Hm. unfold shr_fexp. apply shr_nonneg.
  destruct l as [|[]]; exact Hm.
Qed.

Lemma round_nearest_even_nonneg (m : Z) (l : location) :
  (0 ≤ m)%Z → (0 ≤ round_nearest_even m l)%Z.
Proof.
  intros Hm. unfold round_nearest_even.
  destruct l as [|[]]; try destruct (Z.even m); lia.
Qed.

Lemma binary_round_aux_not_nan (prec emax : Z) sx mx ex lx :
  (0 ≤ mx)%Z → binary_round_aux prec emax sx mx ex lx ≠ S754_nan.
Proof.
  intros Hm. unfold binary_round_aux.
  pose proof (shr_fexp_nonneg prec emax mx ex lx Hm) as H1.
  destruct (shr_fexp prec emax mx ex lx) as [mrs' e']. simpl in H1.
  pose proof (shr_fexp_nonneg prec emax _ e' loc_Exact
                (round_nearest_even_nonneg _ (loc_of_shr_record mrs') H1))
    as H2.
  destruct (shr_fexp prec emax _ e' loc_Exact) as [mrs'' e'']. simpl in H2.
  destruct (shr_m mrs''); [discriminate| |lia].
  destruct (_ <=? _)%Z; discriminate.
Qed.

Lemma binary_normalize_not_nan (prec emax : Z) m e sz :
  binary_normalize prec emax m e sz ≠ S754_nan.
Proof.
  unfold binary_normalize, binary_round.
  destruct m; [discriminate| |];
    destruct (shl_align _ _ _); apply binary_round_aux_not_nan; lia.
Qed.

Lemma SFadd_not_nan (prec emax : Z) (a b : spec_float) :
  SFfinite a → SFfinite b → SFadd prec emax a b ≠ S754_nan.
Proof.
  destruct a as [sa|sa| |sa ma ea], b as [sb|sb| |sb mb eb];
    simpl; try tauto; intros _ _; try discriminate.
  - destruct sa, sb; discriminate.
  - apply binary_normalize_not_nan.
Qed.

Lemma SFdiv_not_nan (prec emax : Z) (a : spec_float) sb mb eb :
  a ≠ S754_nan → SFdiv prec emax a (S754_finite sb mb eb) ≠ S754_nan.
Proof.
  destruct a as [sa|sa| |sa ma ea]; simpl; try discriminate; [tauto|].
  intros _. unfold SFdiv_core_binary.
  match goal with |- context [Z.div_eucl ?m ?d] =>
    assert (0 ≤ m)%Z as Hm;
      [|pose proof (Z.div_pos m d Hm ltac:(lia)) as Hq; unfold Z.div in Hq;
        destruct (Z.div_eucl m d) as [q r]]
  end.
  { destruct (_ - _ - _)%Z eqn:E; try lia. apply Z.shiftl_nonneg. lia. }
  apply binary_round_aux_not_nan, Hq.
Qed.

(** *** Comparisons and sums of ratings *)

Lemma eqb_refl (x : float) : Prim2SF x ≠ S754_nan → PrimFloat.eqb x x = true.
Proof.
  rewrite FloatAxioms.eqb_spec. unfold SFeqb.
  destruct (Prim2SF x) as [s|s| |s m e]; simpl; try done.
  - destruct s; done.
  - intros _. rewrite Z.compare_refl, Pos.compare_cont_refl.
    destruct s; done.
Qed.

Lemma five_spec : Prim2SF 5 = S754_finite false 5629499534213120 (-50).
Proof. reflexivity. Qed.

Lemma two_spec : Prim2SF 2 = S754_finite false 4503599627370496 (-51).
Proof. reflexivity. Qed.

(** A rating between 0 and 5 is a zero or a positive finite number. *)
Lemma between_0_5_finite (x : float) :
  F64.between 0 5 x →
  match Prim2SF x with
  | S754_zero _ | S754_finite false _ _ => True
  | _ => False
  end.
Proof.
  intros [Hlo Hhi]. rewrite leb_spec in Hlo, Hhi.
  rewrite five_spec in Hhi. change (Prim2SF 0) with (S754_zero false) in Hlo.
  destruct (Prim2SF x) as [s|s| |s m e]; try done.
  - destruct s; discriminate.
  - destruct s; [discriminate|done].
Qed.

(** [0.0 + x] is [x], except that it turns the negative zero into the
    positive one. *)
Lemma add_zero_l (x : float) :
  Prim2SF x ≠ S754_zero true → (0 + x)%float = x.
Proof.
  intros Hx. apply Prim2SF_inj. rewrite FloatAxioms.add_spec.
  change (Prim2SF 0) with (S754_zero false).
  destruct (Prim2SF x) as [s|s| |s m e]; try reflexivity.
  destruct s; [congruence|reflexivity].
Qed.

Lemma neg_zero_eq (x : float) :
  Prim2SF x = S754_zero true → x = (-0)%float.
Proof.
  intros Hx. rewrite <- (SF2Prim_Prim2SF x), Hx. reflexivity.
Qed.

Lemma pos_zero_eq (x : float) :
  Prim2SF x = S754_zero false → x = 0%float.
Proof.
  intros Hx. rewrite <- (SF2Prim_Prim2SF x), Hx. reflexivity.
Qed.

Lemma half_sum_not_nan (x y : float) :
  SFfinite (Prim2SF x) → SFfinite (Prim2SF y) →
  Prim2SF ((x + y) / 2) ≠ S754_nan.
Proof.
  intros Hx Hy. rewrite div_spec, FloatAxioms.add_spec, two_spec.
  apply SFdiv_not_nan, SFadd_not_nan; assumption.
Qed.

(** The two sums of the rating loop, halved, equal the halved sum of the
    two ratings for Go's [==]. *)
Lemma half_sum_from_zero (x y : float) :
  F64.between 0 5 x → F64.between 0 5 y →
  F64.eq ((0 + x + y) / 2) ((x + y) / 2).
Proof.
  intros Hx Hy. unfold F64.eq.
  apply between_0_5_finite in Hx, Hy.
  destruct (Prim2SF x) as [[]| | |[] mx ex] eqn:Ex; try done.
  - apply neg_zero_eq in Ex as ->.
    destruct (Prim2SF y) as [[]| | |[] my ey] eqn:Ey; try done.
    + apply neg_zero_eq in Ey as ->. reflexivity.
    + apply pos_zero_eq in Ey as ->. reflexivity.
    + change (0 + -0)%float with 0%float.
      assert ((-0 + y)%float = (0 + y)%float) as ->.
      { apply Prim2SF_inj. rewrite !FloatAxioms.add_spec, Ey. reflexivity. }
      apply eqb_refl, half_sum_not_nan; [done|by rewrite Ey].
  - rewrite add_zero_l by (rewrite Ex; discriminate).
    apply eqb_refl, half_sum_not_nan; [by rewrite Ex|].
    destruct (Prim2SF y) as [| | |[]]; done.
  - rewrite add_zero_l by (rewrite Ex; discriminate).
    apply eqb_refl, half_sum_not_nan; [by rewrite Ex|].
    destruct (Prim2SF y) as [| | |[]]; done.
Qed.

End Float.

(** ** Validation of the salary *)

Lemma validateSalary_None (s : float) :
  validateSalary s = None ↔
  PrimFloat.ltb s 20000 = false ∧ PrimFloat.ltb 2000000 s = false.
Proof.
  unfold validateSalary.
  change (F64.of_Z MinSalary) with 20000%float.
  change (F64.of_Z MaxSalary) with 2000000%float.
  destruct (PrimFloat.ltb s 20000), (PrimFloat.ltb 2000000 s); simpl;
    split; intros; try discriminate; try tauto; destruct_and?; discriminate.
Qed.

Lemma validateSalary_Some (s : float) (err : error) :
  validateSalary s = Some err →
  err = salaryRangeError ∧
  (PrimFloat.ltb s 20000 = true ∨ PrimFloat.ltb 2000000 s = true).
Proof.
  unfold validateSalary.
  change (F64.of_Z MinSalary) with 20000%float.
  change (F64.of_Z MaxSalary) with 2000000%float.
  destruct (PrimFloat.ltb s 20000), (PrimFloat.ltb 2000000 s); simpl;
    intros [= <-] || discriminate; auto.
Qed.

Lemma validateSalary_outside (s : float) :
  PrimFloat.ltb s 20000 = true ∨ PrimFloat.ltb 2000000 s = true →
  validateSalary s = Some salaryRangeError.
Proof.
  intros Hout. destruct (validateSalary s) as [err|] eqn:E.
  - apply validateSalary_Some in E as [-> _]. reflexivity.
  - apply validateSalary_None in E as [? ?]. destruct Hout; congruence.
Qed.

Lemma validateSalary_inside (s : float) :
  F64.between 20000 2000000 s → validateSalary s = None.
Proof.
  intros [Hlo Hhi]. apply validateSalary_None.
  split; apply leb_not_ltb; assumption.
Qed.

Section StoreFacts.
Context {text : GoText}.

(** The three ways [AddEmployee] ends, with the conditions of each. *)
Lemma AddEmployee_cases now woke emp es :
  let r := AddEmployee now woke emp es in
  (ret r = Some ErrInvalidID ∧ (ID emp < 100)%Z ∧ post r = es ∧ trace r = [])
  ∨ (∃ err, ret r = Some err ∧ (100 ≤ ID emp)%Z ∧
       validateName (Name emp) = Some err ∧ post r = es ∧ trace r = [])
  ∨ (ret r = Some salaryRangeError ∧ (100 ≤ ID emp)%Z ∧
       validateName (Name emp) = None ∧
       validateSalary (Salary emp) = Some salaryRangeError ∧
       post r = es ∧ trace r = [])
  ∨ (ret r = Some ErrDuplicateID ∧ (100 ≤ ID emp)%Z ∧
       validateName (Name emp) = None ∧ validateSalary (Salary emp) = None ∧
       is_Some (employees es !! ID emp) ∧ post r = es ∧
       trace r = [EvLock; EvUnlock])
  ∨ (ret r = None ∧ (100 ≤ ID emp)%Z ∧
       validateName (Name emp) = None ∧ validateSalary (Salary emp) = None ∧
       employees es !! ID emp = None ∧
       ∃ ev, is_publish ev = true ∧ trace r = [EvLock; ev; EvUnlock] ∧
         (ev = EvSend (set_LastUpdated now emp) ∨
          ev = EvTimeout (set_LastUpdated now emp)) ∧
         employees (post r) =
           <[ID emp := set_LastUpdated now emp]> (employees es) ∧
         performance (post r) = <[ID emp := []]> (performance es) ∧
         positionStats (post r) = positionStats es ∧
         done (post r) = done es ∧ ctx_done (post r) = ctx_done es ∧
         (ev = EvTimeout (set_LastUpdated now emp) →
            stdout (post r) = stdout es ++ [WarnBusy (Name emp)])).
Proof.
  unfold AddEmployee. simpl.
  destruct (Z.ltb_spec (ID emp) 100) as [Hid|Hid]; [left; auto|].
  right. destruct (validateName (Name emp)) as [err|] eqn:Hn;
    [left; eauto 10|].
  right. destruct (validateSalary (Salary emp)) as [err|] eqn:Hs.
  { left. apply validateSalary_Some in Hs as Hs'. destruct Hs' as [-> _].
    auto 10. }
  right. unfold locked, exists_employee. simpl.
  case_bool_decide as Hex; simpl; [left; auto 10|].
  right. rewrite <- eq_None_not_Some in Hex.
  unfold send_or_timeout, has_room. simpl.
  destruct (_ <? chanCap); simpl.
  { do 5 (split; [done|]). eexists. repeat split; eauto. discriminate. }
  destruct woke, (task es), (learningChan es);
    simpl; do 5 (split; [done|]); eexists; repeat split; eauto;
    discriminate.
Qed.

(** The ways [UpdateEmployee] ends. *)
Lemma UpdateEmployee_cases now emp es :
  let r := UpdateEmployee now emp es in
  (ret r = Some ErrInvalidID ∧ (ID emp < 100)%Z ∧ post r = es ∧ trace r = [])
  ∨ (∃ err, ret r = Some err ∧ (100 ≤ ID emp)%Z ∧
       validateName (Name emp) = Some err ∧ post r = es ∧ trace r = [])
  ∨ (ret r = Some salaryRangeError ∧ (100 ≤ ID emp)%Z ∧
       validateName (Name emp) = None ∧
       validateSalary (Salary emp) = Some salaryRangeError ∧
       post r = es ∧ trace r = [])
  ∨ (ret r = Some ErrEmployeeNotFound ∧ (100 ≤ ID emp)%Z ∧
       validateName (Name emp) = None ∧ validateSalary (Salary emp) = None ∧
       employees es !! ID emp = None ∧ post r = es ∧
       trace r = [EvLock; EvUnlock])
  ∨ (ret r = None ∧ (100 ≤ ID emp)%Z ∧
       validateName (Name emp) = None ∧ validateSalary (Salary emp) = None ∧
       is_Some (employees es !! ID emp) ∧
       post r =
         set_employees (<[ID emp := set_LastUpdated now emp]> (employees es))
           es ∧
       trace r = [EvLock; EvUnlock]).
Proof.
  unfold UpdateEmployee. simpl.
  destruct (Z.ltb_spec (ID emp) 100) as [Hid|Hid]; [left; auto|].
  right. destruct (validateName (Name emp)) as [err|] eqn:Hn;
    [left; eauto 10|].
  right. destruct (validateSalary (Salary emp)) as [err|] eqn:Hs.
  { left. apply validateSalary_Some in Hs as Hs'. destruct Hs' as [-> _].
    auto 10. }
  right. unfold locked, exists_employee. simpl.
  case_bool_decide as Hex; simpl; [right; auto 10|].
  left. rewrite <- eq_None_not_Some in Hex. auto 10.
Qed.

End StoreFacts.

Lemma validateRating_None (rating : float) :
  validateRating rating = None ↔
  PrimFloat.ltb rating 0 = false ∧ PrimFloat.ltb 5 rating = false.
Proof.
  unfold validateRating.
  destruct (PrimFloat.ltb rating 0), (PrimFloat.ltb 5 rating); simpl;
    split; intros; try discriminate; try tauto; destruct_and?; discriminate.
Qed.

Lemma validateRating_Some (rating : float) (err : error) :
  validateRating rating = Some err →
  err = ErrInvalidRating ∧
  (PrimFloat.ltb rating 0 = true ∨ PrimFloat.ltb 5 rating = true).
Proof.
  unfold validateRating.
  destruct (PrimFloat.ltb rating 0), (PrimFloat.ltb 5 rating); simpl;
    intros [= <-] || discriminate; auto.
Qed.

Lemma validateRating_between (rating : float) :
  F64.between 0 5 rating → validateRating rating = None.
Proof.
  intros [Hlo Hhi]. apply validateRating_None.
  split; apply leb_not_ltb; assumption.
Qed.

(** The ways [UpdatePerformance] ends. *)
Lemma UpdatePerformance_cases now id rating es :
  let r := UpdatePerformance now id rating es in
  (ret r = Some ErrInvalidRating ∧
     (PrimFloat.ltb rating 0 = true ∨ PrimFloat.ltb 5 rating = true) ∧
     post r = es ∧ trace r = [])
  ∨ (ret r = Some ErrEmployeeNotFound ∧ validateRating rating = None ∧
       employees es !! id = None ∧ post r = es ∧
       trace r = [EvLock; EvUnlock])
  ∨ (ret r = None ∧ validateRating rating = None ∧
       ∃ emp ev, employees es !! id = Some emp ∧
         let emp' := rated now (history id es) rating emp in
         employees (post r) = <[id := emp']> (employees es) ∧
         performance (post r) =
           <[id := history id es ++ [rating]]> (performance es) ∧
         positionStats (post r) = positionStats es ∧
         done (post r) = done es ∧ ctx_done (post r) = ctx_done es ∧
         task (post r) = task es ∧ stdout (post r) = stdout es ∧
         is_publish ev = true ∧ (ev = EvSend emp' ∨ ev = EvSkip emp') ∧
         trace r = [EvLock; ev; EvUnlock]).
Proof.
  unfold UpdatePerformance. simpl.
  destruct (validateRating rating) as [err|] eqn:Hr.
  { left. apply validateRating_Some in Hr as [-> Hout]. auto. }
  right. unfold locked. simpl.
  destruct (employees es !! id) as [emp|] eqn:Hemp; simpl; [right|left; auto].
  unfold send_or_skip, has_room, rated, history. simpl.
  rewrite lookup_insert_eq. simpl.
  destruct (_ <? chanCap); simpl;
    (do 2 (split; [done|])); exists emp; eexists; repeat split; eauto.
Qed.

(** ** Claims about validation and errors *)

(** C10.  The salary bound enforced by [AddEmployee] and [UpdateEmployee] is
    the closed interval from 20000 to 2000000: both end points pass
    [validateSalary], as does every salary between them; every salary
    strictly below 20000 or strictly above 2000000 is rejected, by the
    validation and by both methods once the identifier and the name are
    valid; and the error returned is never [ErrInvalidSalary], whose
    message cites 30000 and 500000. *)
Theorem salary_bound_is_20000_to_2000000 {text : GoText} :
  validateSalary 20000 = None ∧ validateSalary 2000000 = None ∧
  (∀ s, F64.between 20000 2000000 s → validateSalary s = None) ∧
  (∀ s, PrimFloat.ltb s 20000 = true ∨ PrimFloat.ltb 2000000 s = true →
        validateSalary s = Some salaryRangeError) ∧
  (∀ now woke emp es,
     (100 ≤ ID emp)%Z → validateName (Name emp) = None →
     PrimFloat.ltb (Salary emp) 20000 = true ∨
       PrimFloat.ltb 2000000 (Salary emp) = true →
     ret (AddEmployee now woke emp es) = Some salaryRangeError ∧
     ret (UpdateEmployee now emp es) = Some salaryRangeError) ∧
  (∀ now woke emp es,
     (100 ≤ ID emp)%Z → validateName (Name emp) = None →
     F64.between 20000 2000000 (Salary emp) →
     ret (AddEmployee now woke emp es) =
       (if exists_employee (ID emp) es then Some ErrDuplicateID else None) ∧
     ret (UpdateEmployee now emp es) =
       (if exists_employee (ID emp) es then None
        else Some ErrEmployeeNotFound)) ∧
  (∀ now woke emp es s,
     validateSalary s ≠ Some ErrInvalidSalary ∧
     ret (AddEmployee now woke emp es) ≠ Some ErrInvalidSalary ∧
     ret (UpdateEmployee now emp es) ≠ Some ErrInvalidSalary).
Proof.
  split; [reflexivity|]. split; [reflexivity|].
  split; [apply validateSalary_inside|].
  split; [apply validateSalary_outside|].
  split; [|split].
  - intros now woke emp es Hid Hname Hout.
    apply validateSalary_outside in Hout.
    unfold AddEmployee, UpdateEmployee.
    destruct (Z.ltb_spec (ID emp) 100); [lia|].
    rewrite Hname, Hout. split; reflexivity.
  - intros now woke emp es Hid Hname Hin.
    apply validateSalary_inside in Hin.
    unfold AddEmployee, UpdateEmployee.
    destruct (Z.ltb_spec (ID emp) 100); [lia|].
    rewrite Hname, Hin. unfold locked. simpl.
    destruct (exists_employee (ID emp) es); simpl; [done|].
    split; [|done]. destruct (send_or_timeout _ _ _). reflexivity.
  - intros now woke emp es s. split; [|split].
    + intros E. apply validateSalary_Some in E as [E _]. discriminate.
    + destruct (AddEmployee_cases now woke emp es)
        as [(-> & _)|[(err & -> & _ & Hn & _)|[(-> & _)|[(-> & _)|(-> & _)]]]];
        try discriminate.
      unfold validateName in Hn. repeat case_match; congruence.
    + destruct (UpdateEmployee_cases now emp es)
        as [(-> & _)|[(err & -> & _ & Hn & _)|[(-> & _)|[(-> & _)|(-> & _)]]]];
        try discriminate.
      unfold validateName in Hn. repeat case_match; congruence.
Qed.

(** At a salary inside the interval a record is stored; one unit below the
    lower end point it is rejected. *)
Lemma salary_bound_witness :
  ret (AddEmployee 1 false Scenario.ann NewEmployeeSystem) = None ∧
  ret (AddEmployee 1 false
         {| ID := 101; Name := "Ann"; Position := "Lead"; Salary := 19999;
            Performance := 0; LastUpdated := 0 |} NewEmployeeSystem)
    = Some salaryRangeError.
Proof.
  pose proof (salary_bound_is_20000_to_2000000 (text := AsciiText))
    as (_ & _ & _ & _ & Hout & Hpass & _).
  split.
  - refine (proj1 (Hpass 1%Z false Scenario.ann NewEmployeeSystem _ _ _)).
    + simpl. lia.
    + reflexivity.
    + split; reflexivity.
  - refine (proj1 (Hout 1%Z false _ NewEmployeeSystem _ _ _)).
    + simpl. lia.
    + reflexivity.
    + left. reflexivity.
Defined.

Lemma validateName_None {text : GoText} (name : string) :
  validateName name = None ↔
  2 ≤ String.length (TrimSpace name) ≤ 50 ∧
  Forall (λ r, IsLetter r = true ∨ IsSpace r = true) (runes (TrimSpace name)).
Proof.
  unfold validateName.
  destruct (Nat.ltb_spec (String.length (TrimSpace name)) 2) as [Hlo|Hlo];
    simpl; [split; [discriminate|lia]|].
  destruct (Nat.ltb_spec 50 (String.length (TrimSpace name))) as [Hhi|Hhi];
    simpl; [split; [discriminate|lia]|].
  destruct (forallb _ _) eqn:Hall.
  - split; [intros _|done]. split; [lia|].
    apply Forall_forall. intros r Hr.
    rewrite forallb_forall in Hall. apply list_elem_of_In, Hall in Hr.
    apply orb_true_iff in Hr. exact Hr.
  - split; [discriminate|]. intros [_ HF]. exfalso.
    assert (forallb (λ r, IsLetter r || IsSpace r) (runes (TrimSpace name))
            = true) as Hall'; [|congruence].
    apply forallb_forall. intros r Hr. apply orb_true_iff.
    rewrite Forall_forall in HF. apply HF, list_elem_of_In, Hr.
Qed.

Lemma validateName_Some {text : GoText} (name : string) (err : error) :
  validateName name = Some err → err = ErrInvalidName.
Proof. unfold validateName. repeat case_match; congruence. Qed.

(** C4, as the code has it.  [AddEmployee] fails with an invalid-argument
    error exactly when the identifier is below 100, the name fails the
    length and character-class validation (after trimming, fewer than 2 or
    more than 50 bytes, or a code point that is neither a letter nor white
    space), or the salary is below 20000 or above 2000000; it fails with
    the already-exists error exactly when none of these holds and the
    identifier is present in the store; it succeeds exactly when none of
    these holds and the identifier is absent. *)
Theorem AddEmployee_error_conditions {text : GoText} now woke emp es :
  let r := AddEmployee now woke emp es in
  (fails_with r InvalidArgument ↔ rejected emp) ∧
  (fails_with r AlreadyExists ↔
     ¬ rejected emp ∧ is_Some (employees es !! ID emp)) ∧
  (ret r = None ↔ ¬ rejected emp ∧ employees es !! ID emp = None) ∧
  (validateName (Name emp) = None ↔
     2 ≤ String.length (TrimSpace (Name emp)) ≤ 50 ∧
     Forall (λ c, IsLetter c = true ∨ IsSpace c = true)
       (runes (TrimSpace (Name emp)))).
Proof.
  intros r. split_and!; [| | |apply validateName_None].
  all: unfold fails_with; fold (rejected emp).
  all: destruct (AddEmployee_cases now woke emp es)
    as [(Hr & Hid & _)|[(err & Hr & Hid & Hn & _)|[(Hr & Hid & Hn & Hs & _)|
        [(Hr & Hid & Hn & Hs & Hex & _)|(Hr & Hid & Hn & Hs & Hex & _)]]]];
    fold r in Hr; rewrite Hr.
  all: try (apply validateName_Some in Hn as Herr; subst err).
  all: try (apply validateSalary_Some in Hs as [_ Hout]).
  all: try (apply validateSalary_None in Hs as [Hlo Hhi]).
  all: try (assert (rejected emp) as Hrej
              by (unfold rejected; first [left; lia | right; left; congruence
                                         | right; right; exact Hout])).
  all: try (assert (¬ rejected emp) as Hok
              by (unfold rejected; intros [?|[?|[?|?]]]; congruence || lia)).
  all: try (match goal with
            | Hex : is_Some _ |- _ => destruct Hex as [old Hold]; rewrite Hold in *
            | Hex : _ !! _ = None |- _ => rewrite Hex in *
            end).
  all: split; intros; destruct_and?; try done; try tauto.
  all: try (match goal with
            | Hf : ∃ _, _ |- _ => destruct Hf as (? & [= <-] & [=])
            | Hf : is_Some None |- _ => by apply is_Some_None in Hf
            end).
  all: try (eexists; split; [reflexivity|reflexivity]).
  all: try (split; [assumption|eauto]).
Qed.

(** C4, as the specification words it, fails: identifier 50 is positive, the
    name and the salary are valid, and [AddEmployee] still fails with an
    invalid-argument error. *)
Lemma AddEmployee_rejects_identifier_50 :
  let emp :=
    {| ID := 50; Name := "Ann"; Position := "Lead"; Salary := 60000;
       Performance := 0; LastUpdated := 0 |} in
  let r := AddEmployee 1 false emp NewEmployeeSystem in
  ¬ (fails_with r InvalidArgument ↔
     (ID emp ≤ 0)%Z ∨ validateName (Name emp) ≠ None ∨
     PrimFloat.ltb (Salary emp) 20000 = true ∨
     PrimFloat.ltb 2000000 (Salary emp) = true).
Proof.
  intros emp r [Hfail _].
  destruct Hfail as [Hid|[Hname|[Hlo|Hhi]]].
  - exists ErrInvalidID. split; reflexivity.
  - simpl in Hid. lia.
  - apply Hname. reflexivity.
  - vm_compute in Hlo. discriminate.
  - vm_compute in Hhi. discriminate.
Qed.

(** C5.  Whenever [AddEmployee], [UpdateEmployee] or [UpdatePerformance]
    returns an error, the system after the call is the system before it: the
    employee map, the performance-history map and the number of records are
    the same, and so is the record stored under the identifier of a
    duplicate [AddEmployee]. *)
Theorem failed_call_changes_nothing {text : GoText}
    now woke emp id rating es err :
  (ret (AddEmployee now woke emp es) = Some err →
     let es' := post (AddEmployee now woke emp es) in
     es' = es ∧ employees es' = employees es ∧
     performance es' = performance es ∧
     size (employees es') = size (employees es) ∧
     employees es' !! ID emp = employees es !! ID emp) ∧
  (ret (UpdateEmployee now emp es) = Some err →
     let es' := post (UpdateEmployee now emp es) in
     es' = es ∧ employees es' = employees es ∧
     performance es' = performance es ∧
     size (employees es') = size (employees es)) ∧
  (ret (UpdatePerformance now id rating es) = Some err →
     let es' := post (UpdatePerformance now id rating es) in
     es' = es ∧ employees es' = employees es ∧
     performance es' = performance es ∧
     size (employees es') = size (employees es)).
Proof.
  split_and!; intros Hret es'; subst es'.
  - destruct (AddEmployee_cases now woke emp es)
      as [(_ & _ & -> & _)|[(? & _ & _ & _ & -> & _)|[(_ & _ & _ & _ & -> & _)|
          [(_ & _ & _ & _ & _ & -> & _)|(Hr & _)]]]];
      auto; congruence.
  - destruct (UpdateEmployee_cases now emp es)
      as [(_ & _ & -> & _)|[(? & _ & _ & _ & -> & _)|[(_ & _ & _ & _ & -> & _)|
          [(_ & _ & _ & _ & _ & -> & _)|(Hr & _)]]]];
      auto; congruence.
  - destruct (UpdatePerformance_cases now id rating es)
      as [(_ & _ & -> & _)|[(_ & _ & _ & -> & _)|(Hr & _)]];
      auto; congruence.
Qed.

(** A second [AddEmployee] of identifier 101 fails and leaves the stored
    record, with its first salary, in place. *)
Lemma failed_call_witness :
  let again :=
    {| ID := 101; Name := "Bob"; Position := "Clerk"; Salary := 30000;
       Performance := 0; LastUpdated := 0 |} in
  ret (AddEmployee 2 false again Scenario.created) = Some ErrDuplicateID ∧
  post (AddEmployee 2 false again Scenario.created) = Scenario.created ∧
  Salary <$> employees Scenario.created !! 101%Z = Some 60000%float.
Proof.
  intros again.
  assert (ret (AddEmployee 2 false again Scenario.created)
          = Some ErrDuplicateID) as Hret by reflexivity.
  split; [exact Hret|]. split; [|reflexivity].
  exact (proj1 (proj1 (failed_call_changes_nothing (text := AsciiText)
                         2%Z false again 0%Z 0%float Scenario.created
                         ErrDuplicateID) Hret)).
Defined.

(** ** Shutdown *)

(** C1 does not hold of the code.  Once a first [Shutdown] has returned, a
    second one panics on [close(es.done)]; in particular the program itself
    panics at choice 6 of its menu, where the explicit [Shutdown] is
    followed by the deferred one. *)
Theorem second_Shutdown_panics (es es' : EmployeeSystem) :
  Shutdown es = Ok es' →
  Shutdown es' = Panic "close of closed channel" ∧
  main_exit es = Panic "close of closed channel".
Proof.
  unfold main_exit, Shutdown. destruct (done es) eqn:Hd; [discriminate|].
  intros [= <-]. simpl. auto.
Qed.

Lemma second_Shutdown_witness :
  Shutdown NewEmployeeSystem = Ok (set_done true NewEmployeeSystem) ∧
  Shutdown (set_done true NewEmployeeSystem)
    = Panic "close of closed channel" ∧
  main_exit NewEmployeeSystem = Panic "close of closed channel".
Proof.
  split; [reflexivity|].
  apply (second_Shutdown_panics NewEmployeeSystem). reflexivity.
Defined.

(** ** Publishing and the queue *)

(** The send leaves the store as it is, whatever the state of the queue. *)
Lemma send_or_timeout_store woke emp es :
  employees (send_or_timeout woke emp es).1 = employees es ∧
  performance (send_or_timeout woke emp es).1 = performance es.
Proof.
  unfold send_or_timeout. destruct (has_room es); [done|].
  destruct woke, (task es), (learningChan es); done.
Qed.

Lemma send_or_skip_store emp es :
  employees (send_or_skip emp es).1 = employees es ∧
  performance (send_or_skip emp es).1 = performance es.
Proof. unfold send_or_skip. destruct (has_room es); done. Qed.

(** Membership of an event in an explicit trace, case by case. *)
Ltac in_trace H :=
  repeat (apply elem_of_cons in H as [H|H]; [try discriminate H|]);
  try (by apply elem_of_nil in H).

(** C7.  The result of [AddEmployee] (send with a timeout) and of
    [UpdatePerformance] (send without waiting) and the records they commit
    depend on the store alone: two systems with the same employee and
    history maps give the same return value and the same maps after the
    call, whatever their queues hold and whether or not the goroutine makes
    room in time.  A send that times out or is skipped goes with a [nil]
    result; the timeout adds the warning to the output. *)
Theorem result_independent_of_queue {text : GoText}
    now woke1 woke2 emp id rating es1 es2 :
  employees es1 = employees es2 →
  performance es1 = performance es2 →
  let a1 := AddEmployee now woke1 emp es1 in
  let a2 := AddEmployee now woke2 emp es2 in
  let p1 := UpdatePerformance now id rating es1 in
  let p2 := UpdatePerformance now id rating es2 in
  (ret a1 = ret a2 ∧ employees (post a1) = employees (post a2) ∧
   performance (post a1) = performance (post a2)) ∧
  (ret p1 = ret p2 ∧ employees (post p1) = employees (post p2) ∧
   performance (post p1) = performance (post p2)) ∧
  (∀ e, EvTimeout e ∈ trace a1 →
     ret a1 = None ∧ stdout (post a1) = stdout es1 ++ [WarnBusy (Name emp)]) ∧
  (∀ e, EvSkip e ∈ trace p1 → ret p1 = None ∧ stdout (post p1) = stdout es1).
Proof.
  intros Hemp Hperf a1 a2 p1 p2. split; [|split; [|split]].
  - subst a1 a2. unfold AddEmployee.
    destruct (ID emp <? 100)%Z; [done|].
    destruct (validateName (Name emp)); [done|].
    destruct (validateSalary (Salary emp)); [done|].
    unfold locked, exists_employee. simpl. rewrite Hemp.
    case_bool_decide; [done|]. simpl.
    rewrite Hperf.
    match goal with |- context [send_or_timeout woke1 ?e ?s] =>
      pose proof (send_or_timeout_store woke1 e s) as [H1 H1'];
      destruct (send_or_timeout woke1 e s) end.
    match goal with |- context [send_or_timeout woke2 ?e ?s] =>
      pose proof (send_or_timeout_store woke2 e s) as [H2 H2'];
      destruct (send_or_timeout woke2 e s) end.
    simpl in *. split_and!; congruence.
  - subst p1 p2. unfold UpdatePerformance.
    destruct (validateRating rating); [done|].
    unfold locked, history. simpl. rewrite Hemp.
    destruct (employees es2 !! id); [|done]. simpl.
    rewrite Hperf.
    match goal with |- context [send_or_skip ?e ?s] =>
      pose proof (send_or_skip_store e s) as [H1 H1'];
      destruct (send_or_skip e s) end.
    match goal with |- context [send_or_skip ?e ?s] =>
      pose proof (send_or_skip_store e s) as [H2 H2'];
      destruct (send_or_skip e s) end.
    simpl in *. split_and!; congruence.
  - intros e He.
    destruct (AddEmployee_cases now woke1 emp es1)
      as [(_ & _ & _ & Ht)|[(? & _ & _ & _ & _ & Ht)|[(_ & _ & _ & _ & _ & Ht)|
          [(_ & _ & _ & _ & _ & _ & Ht)|(Hr & _ & _ & _ & _ & ev & _ & Ht & Hev
                                         & _ & _ & _ & _ & _ & Hout)]]]];
      fold a1 in Ht; rewrite Ht in He; in_trace He.
    split; [exact Hr|]. apply Hout.
    destruct Hev as [->| ->]; [discriminate|reflexivity].
  - intros e He.
    destruct (UpdatePerformance_cases now id rating es1)
      as [(_ & _ & _ & Ht)|[(_ & _ & _ & _ & Ht)|
          (Hr & _ & emp0 & ev & _ & _ & _ & _ & _ & _ & _ & Hout & _ & _ & Ht)]];
      fold p1 in Ht; rewrite Ht in He; in_trace He.
    split; [exact Hr|exact Hout].
Qed.

(** A full queue and an empty one: the same result and the same records,
    with the warning in place of the send. *)
Lemma result_independent_witness :
  let bob :=
    {| ID := 102; Name := "Bob"; Position := "Clerk"; Salary := 30000;
       Performance := 0; LastUpdated := 0 |} in
  let full := AddEmployee 5 false bob Scenario.saturated in
  let free := AddEmployee 5 true bob Scenario.created in
  length (learningChan Scenario.saturated) = chanCap ∧
  ret full = ret free ∧
  employees (post full) = employees (post free) ∧
  performance (post full) = performance (post free) ∧
  ret (UpdatePerformance 5 101 4 Scenario.saturated)
    = ret (UpdatePerformance 5 101 4 Scenario.created).
Proof.
  intros bob full free.
  destruct (result_independent_of_queue (text := AsciiText)
              5%Z false true bob 101%Z 4%float
              Scenario.saturated Scenario.created)
    as ((Hret & Hemp & Hperf) & (Hret' & _) & _);
    [reflexivity|reflexivity|].
  split; [reflexivity|]. split; [exact Hret|]. split; [exact Hemp|].
  split; [exact Hperf|exact Hret'].
Defined.

(** ** The lock and the publish *)

Lemma publishes_under_lock_nil : publishes_under_lock [].
Proof. intros i ev Hi. by rewrite lookup_nil in Hi. Qed.

Lemma publishes_under_lock_empty_section :
  publishes_under_lock [EvLock; EvUnlock].
Proof.
  intros [|[|i]] ev Hi Hp; simpl in Hi; simplify_eq; try discriminate.
Qed.

Lemma publishes_under_lock_section (ev : event) :
  is_publish ev = true → publishes_under_lock [EvLock; ev; EvUnlock].
Proof.
  intros Hev [|[|[|i]]] ev' Hi Hp; simpl in Hi; simplify_eq;
    try discriminate.
  split_and!.
  - exists 0. split; [lia|reflexivity].
  - intros [|j] Hj; [discriminate|lia].
  - exists 2. split; [lia|reflexivity].
Qed.

(** C9, as the code has it.  In [AddEmployee] and in [UpdatePerformance]
    the attempt to publish is made inside the critical section: the lock is
    taken before it and released, by the deferred unlock, only after it.  A
    call that returns [nil] makes exactly one attempt between the lock and
    the unlock; in [AddEmployee] the attempt ends by the send or by the
    timeout, in [UpdatePerformance] by the send or by skipping it at once. *)
Theorem publish_inside_critical_section {text : GoText}
    now woke emp id rating es :
  let a := AddEmployee now woke emp es in
  let p := UpdatePerformance now id rating es in
  publishes_under_lock (trace a) ∧ publishes_under_lock (trace p) ∧
  (ret a = None →
     ∃ ev, trace a = [EvLock; ev; EvUnlock] ∧
       (ev = EvSend (set_LastUpdated now emp) ∨
        ev = EvTimeout (set_LastUpdated now emp))) ∧
  (ret p = None →
     ∃ ev e, trace p = [EvLock; ev; EvUnlock] ∧
       (ev = EvSend e ∨ ev = EvSkip e)).
Proof.
  intros a p. split_and!.
  - destruct (AddEmployee_cases now woke emp es)
      as [(_ & _ & _ & Ht)|[(? & _ & _ & _ & _ & Ht)|[(_ & _ & _ & _ & _ & Ht)|
          [(_ & _ & _ & _ & _ & _ & Ht)|(_ & _ & _ & _ & _ & ev & Hp & Ht & _)]]]];
      fold a in Ht; rewrite Ht;
      auto using publishes_under_lock_nil, publishes_under_lock_empty_section,
        publishes_under_lock_section.
  - destruct (UpdatePerformance_cases now id rating es)
      as [(_ & _ & _ & Ht)|[(_ & _ & _ & _ & Ht)|
          (_ & _ & emp0 & ev & _ & _ & _ & _ & _ & _ & _ & _ & Hp & _ & Ht)]];
      fold p in Ht; rewrite Ht;
      auto using publishes_under_lock_nil, publishes_under_lock_empty_section,
        publishes_under_lock_section.
  - intros Hret.
    destruct (AddEmployee_cases now woke emp es)
      as [(Hr & _)|[(? & Hr & _)|[(Hr & _)|
          [(Hr & _)|(_ & _ & _ & _ & _ & ev & _ & Ht & Hev & _)]]]];
      try (fold a in Hr; congruence).
    exists ev. auto.
  - intros Hret.
    destruct (UpdatePerformance_cases now id rating es)
      as [(Hr & _)|[(Hr & _)|
          (_ & _ & emp0 & ev & _ & _ & _ & _ & _ & _ & _ & _ & _ & Hev & Ht)]];
      try (fold p in Hr; congruence).
    exists ev. eexists. split; [exact Ht|exact Hev].
Qed.

Lemma publish_inside_witness :
  trace (AddEmployee 1 false Scenario.ann NewEmployeeSystem)
    = [EvLock; EvSend (set_LastUpdated 1 Scenario.ann); EvUnlock].
Proof.
  destruct (publish_inside_critical_section (text := AsciiText)
              1%Z false Scenario.ann 101%Z 4%float NewEmployeeSystem)
    as (_ & _ & Ha & _).
  destruct Ha as (ev & Ht & Hev); [reflexivity|].
  rewrite Ht. destruct Hev as [->|Hev]; [reflexivity|].
  rewrite Hev in Ht. vm_compute in Ht. discriminate Ht.
Defined.

(** C9, as the specification words it, fails: both methods attempt the
    publish before any unlock. *)
Lemma publish_before_unlock :
  ¬ publishes_after_unlock
      (trace (AddEmployee 1 false Scenario.ann NewEmployeeSystem)) ∧
  ¬ publishes_after_unlock
      (trace (UpdatePerformance 2 101 4 Scenario.created)).
Proof.
  split; intros Hclaim.
  - destruct (Hclaim 1 (EvSend (set_LastUpdated 1 Scenario.ann)))
      as ([|j] & Hj & Hat); [reflexivity|reflexivity|discriminate Hat|lia].
  - destruct (Hclaim 1
                (EvSend (rated 2 [] 4 (set_LastUpdated 1 Scenario.ann))))
      as ([|j] & Hj & Hat); [reflexivity|reflexivity|discriminate Hat|lia].
Qed.

(** ** The performance score and the history *)

Lemma score_snoc (h : list float) (x : float) :
  score (h ++ [x]) = mean (h ++ [x]).
Proof. destruct h; reflexivity. Qed.

Lemma scores_match_new : scores_match NewEmployeeSystem.
Proof. intros id emp Hemp. simpl in Hemp. by rewrite lookup_empty in Hemp. Qed.

Lemma UpdatePerformance_scores now id rating es :
  scores_match es → scores_match (post (UpdatePerformance now id rating es)).
Proof.
  intros Hinv.
  destruct (UpdatePerformance_cases now id rating es)
    as [(_ & _ & -> & _)|[(_ & _ & _ & -> & _)|
        (_ & _ & emp & ev & Hemp & He & Hp & _)]]; try exact Hinv.
  intros id' emp'. unfold history. rewrite He, Hp.
  destruct (decide (id = id')) as [<-|Hne].
  - rewrite !lookup_insert_eq. intros [= <-]. simpl. by rewrite score_snoc.
  - rewrite !lookup_insert_ne by done. apply Hinv.
Qed.

Section Scores.
Context {text : GoText}.

Lemma AddEmployee_scores now woke emp es :
  Performance emp = 0%float →
  scores_match es → scores_match (post (AddEmployee now woke emp es)).
Proof.
  intros Hzero Hinv.
  destruct (AddEmployee_cases now woke emp es)
    as [(_ & _ & -> & _)|[(? & _ & _ & _ & -> & _)|[(_ & _ & _ & _ & -> & _)|
        [(_ & _ & _ & _ & _ & -> & _)|
         (_ & _ & _ & _ & _ & ev & _ & _ & _ & He & Hp & _)]]]];
    try exact Hinv.
  intros id' emp'. unfold history. rewrite He, Hp.
  destruct (decide (ID emp = id')) as [<-|Hne].
  - rewrite !lookup_insert_eq. intros [= <-]. exact Hzero.
  - rewrite !lookup_insert_ne by done. apply Hinv.
Qed.

Lemma UpdateEmployee_scores now emp es :
  Performance emp = score (history (ID emp) es) →
  scores_match es → scores_match (post (UpdateEmployee now emp es)).
Proof.
  intros Hperf Hinv.
  destruct (UpdateEmployee_cases now emp es)
    as [(_ & _ & -> & _)|[(? & _ & _ & _ & -> & _)|[(_ & _ & _ & _ & -> & _)|
        [(_ & _ & _ & _ & _ & -> & _)|(_ & _ & _ & _ & _ & -> & _)]]]];
    try exact Hinv.
  intros id' emp'. unfold history. simpl.
  destruct (decide (ID emp = id')) as [<-|Hne].
  - rewrite lookup_insert_eq. intros [= <-]. exact Hperf.
  - rewrite lookup_insert_ne by done. apply Hinv.
Qed.

(** C2, as the code has it.  [UpdatePerformance] preserves the invariant
    that every stored record's performance is the mean of the history of
    its identifier (zero while the history is empty), and after a
    successful call the record it rated carries the mean of its history;
    [GetEmployee] and [GetAllEmployees] leave the system as it is;
    [AddEmployee] and [UpdateEmployee] store the performance field of their
    argument as given, so they preserve the invariant when that field is
    zero, respectively the score of the identifier's present history. *)
Theorem scores_match_preserved now woke emp id rating order es :
  scores_match es →
  scores_match (post (UpdatePerformance now id rating es)) ∧
  (ret (UpdatePerformance now id rating es) = None →
     ∃ e, employees (post (UpdatePerformance now id rating es)) !! id = Some e
       ∧ Performance e
         = mean (history id (post (UpdatePerformance now id rating es)))) ∧
  post (GetEmployee id es) = es ∧
  post (GetAllEmployees order es) = es ∧
  (Performance emp = 0%float →
     scores_match (post (AddEmployee now woke emp es))) ∧
  (Performance emp = score (history (ID emp) es) →
     scores_match (post (UpdateEmployee now emp es))).
Proof.
  intros Hinv. split_and!.
  - apply UpdatePerformance_scores, Hinv.
  - intros Hret.
    destruct (UpdatePerformance_cases now id rating es)
      as [(Hr & _)|[(Hr & _)|(_ & _ & e & ev & Hemp & He & Hp & _)]];
      try congruence.
    eexists. unfold history. rewrite He, Hp, !lookup_insert_eq.
    split; reflexivity.
  - unfold GetEmployee, rlocked. simpl. by destruct (employees es !! id).
  - reflexivity.
  - intros Hzero. by apply AddEmployee_scores.
  - intros Hperf. by apply UpdateEmployee_scores.
Qed.

End Scores.

(** The invariant holds of the scenario after one rating, and the rating
    again preserves it. *)
Lemma scores_match_rated_once : scores_match Scenario.rated_once.
Proof.
  apply UpdatePerformance_scores, (AddEmployee_scores (text := AsciiText));
    [reflexivity|apply scores_match_new].
Qed.

Lemma scores_match_witness : scores_match Scenario.rated_twice.
Proof.
  exact (proj1 (scores_match_preserved (text := AsciiText)
                  3%Z false Scenario.ann 101%Z 5%float []
                  Scenario.rated_once scores_match_rated_once)).
Defined.

(** C2, as the specification words it, fails.  After one rating of 4 the
    record 101 has performance 4; an update of its salary, with a record
    whose performance field is the zero of a fresh literal, stores
    performance 0 while the history still holds the rating.  The state is
    reachable and [UpdateEmployee] took it out of the invariant. *)
Lemma UpdateEmployee_breaks_scores :
  let raise :=
    {| ID := 101; Name := "Ann"; Position := "Lead"; Salary := 65000;
       Performance := 0; LastUpdated := 0 |} in
  let es := post (UpdateEmployee 3 raise Scenario.rated_once) in
  scores_match Scenario.rated_once ∧
  ret (UpdateEmployee 3 raise Scenario.rated_once) = None ∧
  reachable es ∧ ¬ scores_match es.
Proof.
  intros raise es. split_and!.
  - exact scores_match_rated_once.
  - reflexivity.
  - unfold reachable.
    eapply rtc_l; [apply (step_AddEmployee 1 false Scenario.ann)|].
    eapply rtc_l; [apply (step_UpdatePerformance 2 101 4)|].
    apply rtc_once, (step_UpdateEmployee 3 raise).
  - intros Hinv.
    specialize (Hinv 101%Z (set_LastUpdated 3 raise) eq_refl).
    apply (f_equal (PrimFloat.eqb 0)) in Hinv.
    vm_compute in Hinv. discriminate Hinv.
Qed.

(** C8.  For an existing identifier whose history is empty and two ratings
    [x] and [y] between 0 and 5, [UpdatePerformance(id, x)] followed by
    [UpdatePerformance(id, y)] both succeed and leave a record whose
    performance is [(0.0 + x + y) / 2], which equals [(x + y) / 2] for Go's
    [==], and is the very same binary64 number unless [x] is the negative
    zero.  In the scenario, record 101 has performance 0 before any rating
    and exactly 4.5 after the ratings 4.0 and 5.0. *)
Theorem two_ratings_average now1 now2 id x y emp es :
  employees es !! id = Some emp →
  history id es = [] →
  F64.between 0 5 x → F64.between 0 5 y →
  let r1 := UpdatePerformance now1 id x es in
  let r2 := UpdatePerformance now2 id y (post r1) in
  ret r1 = None ∧ ret r2 = None ∧
  (∃ emp2, ret (GetEmployee id (post r2)) = (emp2, None) ∧
     Performance emp2 = ((0 + x + y) / 2)%float ∧
     F64.eq (Performance emp2) ((x + y) / 2) ∧
     (Prim2SF x ≠ S754_zero true →
        Performance emp2 = ((x + y) / 2)%float)) ∧
  Performance (ret (GetEmployee 101 Scenario.created)).1 = 0%float ∧
  Performance (ret (GetEmployee 101 Scenario.rated_twice)).1 = 4.5%float.
Proof.
  intros Hemp Hhist Hx Hy r1 r2.
  pose proof (validateRating_between x Hx) as Hvx.
  pose proof (validateRating_between y Hy) as Hvy.
  destruct (UpdatePerformance_cases now1 id x es)
    as [(_ & Hout & _)|[(_ & _ & Hnone & _)|
        (Hr1 & _ & emp0 & ev1 & Hemp0 & He1 & Hp1 & _)]].
  { apply validateRating_None in Hvx as [? ?]. destruct Hout; congruence. }
  { congruence. }
  fold r1 in Hr1, He1, Hp1.
  assert (history id (post r1) = [x]) as Hh1.
  { unfold history. rewrite Hp1, lookup_insert_eq, Hhist. reflexivity. }
  destruct (UpdatePerformance_cases now2 id y (post r1))
    as [(_ & Hout & _)|[(_ & _ & Hnone & _)|
        (Hr2 & _ & emp1 & ev2 & Hemp1 & He2 & _)]].
  { apply validateRating_None in Hvy as [? ?]. destruct Hout; congruence. }
  { rewrite He1, lookup_insert_eq in Hnone. discriminate. }
  fold r2 in Hr2, He2.
  split; [exact Hr1|]. split; [exact Hr2|]. split; [|split; reflexivity].
  eexists. unfold GetEmployee, rlocked. simpl.
  rewrite He2, lookup_insert_eq, Hh1. simpl.
  split; [reflexivity|]. split; [reflexivity|].
  change (Performance (rated now2 [x] y emp1))
    with ((0 + x + y) / 2)%float.
  split.
  - apply half_sum_from_zero; assumption.
  - intros Hnz. by rewrite (add_zero_l x Hnz).
Qed.

(** The ratings 4.0 and 5.0 of the scenario. *)
Lemma two_ratings_witness :
  ∃ emp2, ret (GetEmployee 101 Scenario.rated_twice) = (emp2, None) ∧
    Performance emp2 = ((0 + 4 + 5) / 2)%float ∧
    F64.eq (Performance emp2) 4.5.
Proof.
  destruct (two_ratings_average 2%Z 3%Z 101%Z 4%float 5%float
              (set_LastUpdated 1 Scenario.ann) Scenario.created)
    as (_ & _ & (emp2 & Hget & Hperf & Heq & _) & _).
  - reflexivity.
  - reflexivity.
  - split; reflexivity.
  - split; reflexivity.
  - exists emp2. split; [exact Hget|]. split; [exact Hperf|exact Heq].
Defined.

(** ** The statistics of a position *)

Lemma scan_from (p : string) (l : list Employee)
    (totalPerf : float) (count : nat) (totalSalary : float) :
  fold_left
    (λ '(totalPerf, count, totalSalary) e,
       if String.eqb (Position e) p then
         ((totalPerf + Performance e)%float, S count,
          (totalSalary + Salary e)%float)
       else (totalPerf, count, totalSalary))
    l (totalPerf, count, totalSalary)
  = (fold_left PrimFloat.add (Performance <$> members p l) totalPerf,
     count + length (members p l),
     fold_left PrimFloat.add (Salary <$> members p l) totalSalary).
Proof.
  revert totalPerf count totalSalary.
  induction l as [|e l IH]; intros totalPerf count totalSalary; simpl.
  - by rewrite Nat.add_0_r.
  - unfold members. rewrite filter_cons.
    destruct (String.eqb_spec (Position e) p) as [Heq|Hne].
    + rewrite decide_True by done. rewrite IH. simpl.
      f_equal. f_equal. unfold members. lia.
    + rewrite decide_False by done. apply IH.
Qed.

(** The loop computes the sums and the number of the records of the
    position, in visiting order. *)
Lemma scan_members (p : string) (l : list Employee) :
  scan p l = (F64.sum (Performance <$> members p l), length (members p l),
              F64.sum (Salary <$> members p l)).
Proof. unfold scan. by rewrite scan_from. Qed.

Lemma members_enumerates (p : string) order es :
  enumerates order es → members p order ≡ₚ members p (stored es).
Proof. intros Horder. unfold members. by rewrite Horder. Qed.

(** C6, as the code has it.  For an event carrying a record of position
    [p], processed while the loop visits the stored records in the order
    [order], the goroutine counts the stored records of position [p], adds
    up their performances and their salaries in visiting order, and, when
    there is at least one such record, stores under [p] a snapshot with
    that count, the sum of the performances divided by the count, the sum
    of the salaries and the time of the computation, replacing what was
    stored under [p]; when there is none it leaves the statistics as they
    were.  The records and the histories are not touched. *)
Theorem learn_statistics now order emp es :
  enumerates order es →
  let p := Position emp in
  let ms := members p order in
  let es' := post (learn now order emp es) in
  length ms = length (members p (stored es)) ∧
  ms ≡ₚ members p (stored es) ∧
  (0 < length ms →
     positionStats es' =
       <[p := {| AvgPerformance :=
                   F64.sum (Performance <$> ms) / F64.of_nat (length ms);
                 EmployeeCount := length ms;
                 TotalSalary := F64.sum (Salary <$> ms);
                 StatsLastUpdated := now |}]> (positionStats es)) ∧
  (length ms = 0 → positionStats es' = positionStats es) ∧
  employees es' = employees es ∧ performance es' = performance es.
Proof.
  intros Horder p ms es'.
  pose proof (members_enumerates p order es Horder) as Hperm.
  split; [exact (Permutation_length Hperm)|]. split; [exact Hperm|].
  subst es'. unfold learn, locked. rewrite scan_members. fold p ms.
  destruct (Nat.ltb_spec 0 (length ms)) as [Hpos|Hzero]; simpl.
  - split_and!; try done. intros Habs. lia.
  - split_and!; try done. intros Habs. lia.
Qed.

(** After the first event the statistics of "Lead" count one record with
    the salary 60000. *)
Lemma learn_statistics_witness :
  positionStats Scenario.counted
  = <["Lead" := {| AvgPerformance := 0; EmployeeCount := 1;
                   TotalSalary := 60000; StatsLastUpdated := 2 |}]> ∅.
Proof.
  destruct (learn_statistics 2%Z [Scenario.ann1] Scenario.ann1 Scenario.taken)
    as (_ & _ & Hstats & _).
  - unfold enumerates. vm_compute. reflexivity.
  - apply Hstats. vm_compute. lia.
Defined.

(** C6, as the specification words it, fails.  The goroutine holds an event
    of position "Lead" while no stored record has that position any more:
    it computes the count 0 and keeps the snapshot of time 2, with its
    count of 1, instead of replacing it at time 5. *)
Lemma learn_keeps_stale_statistics :
  let order := [set_LastUpdated 4 Scenario.engineer] in
  reachable Scenario.taken_again ∧
  task Scenario.taken_again = Received Scenario.ann4 ∧
  enumerates order Scenario.taken_again ∧
  members "Lead" (stored Scenario.taken_again) = [] ∧
  (EmployeeCount <$>
     positionStats (post (learn 5 order Scenario.ann4 Scenario.taken_again))
       !! "Lead") = Some 1 ∧
  ¬ replaces_statistics 5 order Scenario.ann4 Scenario.taken_again.
Proof.
  intros order.
  assert (enumerates order Scenario.taken_again) as Horder.
  { unfold enumerates. vm_compute. reflexivity. }
  split_and!; try reflexivity; try exact Horder.
  - unfold reachable.
    eapply rtc_l; [apply (step_AddEmployee 1 false Scenario.ann)|].
    eapply rtc_l; [apply (step_receive _ Scenario.ann1 []); reflexivity|].
    eapply rtc_l.
    { apply (step_learn 2 [Scenario.ann1] Scenario.ann1); [reflexivity|].
      unfold enumerates. vm_compute. reflexivity. }
    eapply rtc_l; [apply (step_UpdatePerformance 3 101 4)|].
    eapply rtc_l; [apply (step_UpdateEmployee 4 Scenario.engineer)|].
    apply rtc_once.
    apply (step_receive Scenario.moved Scenario.ann4 []); reflexivity.
  - intros (st & Hst & Hcount & Htime).
    vm_compute in Hst. injection Hst as <-. discriminate Htime.
Qed.

(** ** Cancellation *)

(** Nothing in the program calls [cancel]: no step changes [ctx_done]. *)
Lemma step_ctx_done {text : GoText} (es es' : EmployeeSystem) :
  step es es' → ctx_done es' = ctx_done es.
Proof.
  destruct 1 as [now woke emp es|now emp es|now id rating es|id es|order es _
                |es es' Hs|es e q _ _|now order e es _ _|es _ _].
  - destruct (AddEmployee_cases now woke emp es)
      as [(_ & _ & -> & _)|[(? & _ & _ & _ & -> & _)|[(_ & _ & _ & _ & -> & _)|
          [(_ & _ & _ & _ & _ & -> & _)|
           (_ & _ & _ & _ & _ & ev & _ & _ & _ & _ & _ & _ & _ & Hc & _)]]]];
      done.
  - destruct (UpdateEmployee_cases now emp es)
      as [(_ & _ & -> & _)|[(? & _ & _ & _ & -> & _)|[(_ & _ & _ & _ & -> & _)|
          [(_ & _ & _ & _ & _ & -> & _)|(_ & _ & _ & _ & _ & -> & _)]]]];
      done.
  - destruct (UpdatePerformance_cases now id rating es)
      as [(_ & _ & -> & _)|[(_ & _ & _ & -> & _)|
          (_ & _ & emp & ev & _ & _ & _ & _ & _ & Hc & _)]]; done.
  - unfold GetEmployee, rlocked. simpl. by destruct (employees es !! id).
  - reflexivity.
  - unfold Shutdown in Hs. destruct (done es); [discriminate|].
    by injection Hs as <-.
  - reflexivity.
  - unfold learn, locked. simpl.
    destruct (scan (Position e) order) as [[totalPerf count] totalSalary].
    by destruct (0 <? count).
  - reflexivity.
Qed.

(** While the context is not cancelled the goroutine does not return. *)
Lemma step_not_returned {text : GoText} (es es' : EmployeeSystem) :
  step es es' → ctx_done es = false →
  task es ≠ Returned → task es' ≠ Returned.
Proof.
  destruct 1 as [now woke emp es|now emp es|now id rating es|id es|order es _
                |es es' Hs|es e q _ _|now order e es _ _|es _ Hc];
    intros Hctx Htask.
  - unfold AddEmployee, locked, send_or_timeout.
    repeat (case_match; simplify_eq; simpl; try done); congruence.
  - destruct (UpdateEmployee_cases now emp es)
      as [(_ & _ & -> & _)|[(? & _ & _ & _ & -> & _)|[(_ & _ & _ & _ & -> & _)|
          [(_ & _ & _ & _ & _ & -> & _)|(_ & _ & _ & _ & _ & -> & _)]]]];
      done.
  - destruct (UpdatePerformance_cases now id rating es)
      as [(_ & _ & -> & _)|[(_ & _ & _ & -> & _)|
          (_ & _ & emp & ev & _ & _ & _ & _ & _ & _ & Ht & _)]];
      [done|done|]. simpl in Ht. by rewrite Ht.
  - unfold GetEmployee, rlocked. simpl. by destruct (employees es !! id).
  - done.
  - unfold Shutdown in Hs. destruct (done es); [discriminate|].
    by injection Hs as <-.
  - done.
  - unfold learn, locked. simpl.
    destruct (scan (Position e) order) as [[totalPerf count] totalSalary].
    by destruct (0 <? count).
  - congruence.
Qed.

Lemma steps_not_returned {text : GoText} (es es' : EmployeeSystem) :
  rtc step es es' → ctx_done es = false → task es ≠ Returned →
  ctx_done es' = false ∧ task es' ≠ Returned.
Proof.
  induction 1 as [es|es es1 es2 Hstep _ IH]; intros Hctx Htask; [done|].
  apply IH.
  - by rewrite (step_ctx_done _ _ Hstep).
  - by apply (step_not_returned _ _ Hstep).
Qed.

(** C3 does not hold of the code.  [Shutdown] closes [es.done], which the
    goroutine never reads; the goroutine waits for [es.ctx.Done()], and
    [cancel] is never called.  So in every execution from a new system,
    after [Shutdown] has returned the goroutine never returns: whatever
    happens next, the context is not cancelled and the goroutine is still
    in its loop, where it goes on receiving whatever is published. *)
Theorem selfLearning_never_returns {text : GoText}
    (es es' es'' : EmployeeSystem) :
  reachable es → Shutdown es = Ok es' → rtc step es' es'' →
  done es'' = true ∧ ctx_done es'' = false ∧ task es'' ≠ Returned.
Proof.
  intros Hreach Hshut Hsteps.
  assert (rtc step NewEmployeeSystem es'') as Hall.
  { etrans; [exact Hreach|]. eapply rtc_l; [|exact Hsteps].
    by apply step_Shutdown. }
  split; [|by apply (steps_not_returned _ _ Hall)].
  assert (done es' = true) as Hdone.
  { unfold Shutdown in Hshut. destruct (done es); [discriminate|].
    by injection Hshut as <-. }
  clear Hall Hshut Hreach.
  induction Hsteps as [es1|es1 es2 es3 Hstep _ IH]; [exact Hdone|].
  apply IH. clear IH.
  destruct Hstep as [now woke emp s|now emp s|now id rating s|id s|order s _
                |s s' Hs|s e q _ _|now order e s _ _|s _ _].
  - destruct (AddEmployee_cases now woke emp s)
      as [(_ & _ & -> & _)|[(? & _ & _ & _ & -> & _)|[(_ & _ & _ & _ & -> & _)|
          [(_ & _ & _ & _ & _ & -> & _)|
           (_ & _ & _ & _ & _ & ev & _ & _ & _ & _ & _ & _ & Hd & _)]]]];
      congruence.
  - destruct (UpdateEmployee_cases now emp s)
      as [(_ & _ & -> & _)|[(? & _ & _ & _ & -> & _)|[(_ & _ & _ & _ & -> & _)|
          [(_ & _ & _ & _ & _ & -> & _)|(_ & _ & _ & _ & _ & -> & _)]]]];
      done.
  - destruct (UpdatePerformance_cases now id rating s)
      as [(_ & _ & -> & _)|[(_ & _ & _ & -> & _)|
          (_ & _ & emp & ev & _ & _ & _ & _ & Hd & _)]]; congruence.
  - unfold GetEmployee, rlocked. simpl. by destruct (employees s !! id).
  - done.
  - unfold Shutdown in Hs. by rewrite Hdone in Hs.
  - done.
  - unfold learn, locked. simpl.
    destruct (scan (Position e) order) as [[totalPerf count] totalSalary].
    by destruct (0 <? count).
  - done.
Qed.

(** After [Shutdown] on the system of the scenario, the goroutine still
    takes the queued record and is not returned. *)
Lemma selfLearning_never_returns_witness :
  task (set_task (Received Scenario.ann1)
          (set_learningChan [] (set_done true Scenario.created))) ≠ Returned.
Proof.
  refine (proj2 (proj2 (selfLearning_never_returns (text := AsciiText)
            Scenario.created (set_done true Scenario.created) _ _ _ _))).
  - apply rtc_once, (step_AddEmployee 1 false Scenario.ann).
  - reflexivity.
  - apply rtc_once.
    apply (step_receive (set_done true Scenario.created) Scenario.ann1 []);
      reflexivity.
Defined.

(** * Further properties of the store *)

(** ** Errors of [UpdateEmployee] and [UpdatePerformance] *)

(** [UpdateEmployee] fails with an invalid-argument error exactly when the
    identifier is below 100, the name fails validation or the salary is out
    of range; with the not-found error exactly when the arguments are valid
    and the identifier is absent; and succeeds exactly when the arguments
    are valid and the identifier is present. *)
Theorem UpdateEmployee_error_conditions {text : GoText} now emp es :
  let r := UpdateEmployee now emp es in
  (fails_with r InvalidArgument ↔ rejected emp) ∧
  (fails_with r NotFound ↔ ¬ rejected emp ∧ employees es !! ID emp = None) ∧
  (ret r = None ↔ ¬ rejected emp ∧ is_Some (employees es !! ID emp)).
Proof.
  intros r.
  assert (rejected emp ∧ fails_with r InvalidArgument ∨
          ¬ rejected emp ∧ employees es !! ID emp = None ∧
            ret r = Some ErrEmployeeNotFound ∨
          ¬ rejected emp ∧ is_Some (employees es !! ID emp) ∧ ret r = None)
    as Hcases.
  { destruct (UpdateEmployee_cases now emp es)
      as [(Hr & Hid & _)|[(err & Hr & Hid & Hn & _)|[(Hr & Hid & Hn & Hs & _)|
          [(Hr & Hid & Hn & Hs & Hex & _)|(Hr & Hid & Hn & Hs & Hex & _)]]]];
      fold r in Hr.
    - left. split; [left; exact Hid|]. by exists ErrInvalidID.
    - left. split; [right; left; congruence|].
      apply validateName_Some in Hn as ->. by exists ErrInvalidName.
    - left. apply validateSalary_Some in Hs as [_ Hout].
      split; [right; right; exact Hout|]. by exists salaryRangeError.
    - right; left. apply validateSalary_None in Hs as [Hlo Hhi].
      split; [|done]. intros [?|[?|[?|?]]]; congruence || lia.
    - right; right. apply validateSalary_None in Hs as [Hlo Hhi].
      split; [|done]. intros [?|[?|[?|?]]]; congruence || lia. }
  unfold fails_with in *.
  destruct Hcases as [(Hrej & err & Hr & Hc)|[(Hok & Hex & Hr)|(Hok & Hex & Hr)]];
    rewrite Hr.
  - split_and!; split.
    + done.
    + intros _. by exists err.
    + intros (err' & [= <-] & Hc'). congruence.
    + tauto.
    + done.
    + tauto.
  - split_and!; split.
    + intros (err' & [= <-] & [=]).
    + tauto.
    + done.
    + intros _. by exists ErrEmployeeNotFound.
    + done.
    + intros [_ Hsome]. rewrite Hex in Hsome. by apply is_Some_None in Hsome.
  - split_and!; split.
    + intros (err' & [=] & _).
    + tauto.
    + intros (err' & [=] & _).
    + intros [_ Hnone]. rewrite Hnone in Hex. by apply is_Some_None in Hex.
    + done.
    + done.
Qed.

(** [UpdatePerformance] checks the rating first: it fails with
    [ErrInvalidRating] exactly when the rating is below 0 or above 5,
    whether or not the identifier exists; with [ErrEmployeeNotFound]
    exactly when the rating passes and the identifier is absent; it
    succeeds exactly when the rating passes and the identifier is present.
    It returns no other error. *)
Theorem UpdatePerformance_error_conditions now id rating es :
  let r := UpdatePerformance now id rating es in
  (ret r = Some ErrInvalidRating ↔
     PrimFloat.ltb rating 0 = true ∨ PrimFloat.ltb 5 rating = true) ∧
  (ret r = Some ErrEmployeeNotFound ↔
     validateRating rating = None ∧ employees es !! id = None) ∧
  (ret r = None ↔
     validateRating rating = None ∧ is_Some (employees es !! id)) ∧
  (∀ err, ret r = Some err →
     err = ErrInvalidRating ∨ err = ErrEmployeeNotFound).
Proof.
  intros r.
  destruct (UpdatePerformance_cases now id rating es)
    as [(Hr & Hout & _)|[(Hr & Hv & Hnone & _)|
        (Hr & Hv & emp & ev & Hemp & _)]]; fold r in Hr; rewrite Hr.
  - assert (validateRating rating ≠ None) as Hinv.
    { rewrite validateRating_None. intros [? ?]. destruct Hout; congruence. }
    split_and!; try (split; try done; tauto).
    intros err [= Heq]. by left.
  - apply validateRating_None in Hv as Hv'. destruct Hv' as [Hlo Hhi].
    split_and!; try (split; try done; try tauto).
    + intros [?|?]; congruence.
    + intros [_ Hsome]. rewrite Hnone in Hsome. by apply is_Some_None in Hsome.
    + intros err [= Heq]. by right.
  - apply validateRating_None in Hv as Hv'. destruct Hv' as [Hlo Hhi].
    split_and!; try (split; try done; try tauto).
    + intros [?|?]; congruence.
    + intros [_ Hnone]. congruence.
    + intros err [=].
Qed.

(** ** Not-a-number in the validation and in the score *)

Lemma SFcompare_None (a b : spec_float) :
  SFcompare a b = None ↔ a = S754_nan ∨ b = S754_nan.
Proof.
  destruct a as [sa|sa| |sa ma ea], b as [sb|sb| |sb mb eb]; simpl;
    split; try discriminate; try tauto; try (intros [?|?]; discriminate).
Qed.

Lemma Prim2SF_nan (x : float) : Prim2SF x = S754_nan ↔ x = nan.
Proof.
  split; [|intros ->; reflexivity].
  intros Hx. rewrite <- (SF2Prim_Prim2SF x), Hx. reflexivity.
Qed.

(** [x < y] is false exactly when [y <= x] or one of the two is a NaN. *)
Lemma ltb_false_iff (x y : float) :
  PrimFloat.ltb x y = false ↔
  PrimFloat.leb y x = true ∨ x = nan ∨ y = nan.
Proof.
  rewrite ltb_spec, leb_spec, <- !Prim2SF_nan. unfold SFltb, SFleb.
  rewrite (SFcompare_antisym (Prim2SF x) (Prim2SF y)).
  pose proof (SFcompare_None (Prim2SF x) (Prim2SF y)) as Hnone.
  destruct (SFcompare (Prim2SF x) (Prim2SF y)) as [[]|]; simpl.
  - split; auto.
  - split; [discriminate|].
    intros [?|Hnan]; [done|]. apply Hnone in Hnan. discriminate.
  - split; auto.
  - split; [|done]. intros _. right. by apply Hnone.
Qed.

(** The two validations of numbers accept the NaN: a rating passes exactly
    when it lies between 0 and 5 or is a NaN, a salary exactly when it lies
    between 20000 and 2000000 or is a NaN. *)
Theorem validation_accepts_exactly_range_or_nan (x : float) :
  (validateRating x = None ↔ F64.between 0 5 x ∨ x = nan) ∧
  (validateSalary x = None ↔ F64.between 20000 2000000 x ∨ x = nan).
Proof.
  unfold F64.between. split.
  - rewrite validateRating_None, !ltb_false_iff. split.
    + intros [[?|[?|?]] [?|[?|?]]]; try discriminate; auto.
    + intros [[? ?]| ->]; auto.
  - rewrite validateSalary_None, !ltb_false_iff. split.
    + intros [[?|[?|?]] [?|[?|?]]]; try discriminate; auto.
    + intros [[? ?]| ->]; auto.
Qed.

Lemma add_nan_l (x : float) : (nan + x)%float = nan.
Proof. apply Prim2SF_inj. rewrite FloatAxioms.add_spec. reflexivity. Qed.

Lemma add_nan_r (x : float) : (x + nan)%float = nan.
Proof.
  apply Prim2SF_inj. rewrite FloatAxioms.add_spec.
  change (Prim2SF nan) with S754_nan. by destruct (Prim2SF x).
Qed.

Lemma div_nan_l (x : float) : (nan / x)%float = nan.
Proof. apply Prim2SF_inj. rewrite div_spec. reflexivity. Qed.

Lemma fold_add_nan (l : list float) : fold_left PrimFloat.add l nan = nan.
Proof. induction l as [|x l IH]; simpl; [done|]. by rewrite add_nan_l. Qed.

Lemma fold_add_with_nan (l : list float) (acc : float) :
  nan ∈ l → fold_left PrimFloat.add l acc = nan.
Proof.
  revert acc. induction l as [|x l IH]; intros acc Hin; simpl.
  - by apply elem_of_nil in Hin.
  - apply elem_of_cons in Hin as [<-|Hin].
    + by rewrite add_nan_r, fold_add_nan.
    + by apply IH.
Qed.

Lemma mean_with_nan (l : list float) : nan ∈ l → mean l = nan.
Proof.
  intros Hin. unfold mean, F64.sum.
  by rewrite fold_add_with_nan, div_nan_l.
Qed.

(** A NaN rating is accepted, and from then on the employee's score is a
    NaN: whenever the rating given or one already in the history is a NaN,
    a successful [UpdatePerformance] stores the performance NaN. *)
Theorem nan_rating_poisons_score now id rating es :
  rating = nan ∨ nan ∈ history id es →
  is_Some (employees es !! id) →
  let r := UpdatePerformance now id rating es in
  (rating = nan → ret r = None) ∧
  (ret r = None →
     ∃ e, employees (post r) !! id = Some e ∧ Performance e = nan ∧
          nan ∈ history id (post r)).
Proof.
  intros Hnan Hex r. split.
  - intros ->.
    destruct (UpdatePerformance_cases now id nan es)
      as [(_ & [Hlo|Hhi] & _)|[(_ & _ & Hnone & _)|(Hr & _)]].
    + vm_compute in Hlo. discriminate Hlo.
    + vm_compute in Hhi. discriminate Hhi.
    + rewrite Hnone in Hex. by apply is_Some_None in Hex.
    + exact Hr.
  - intros Hret.
    destruct (UpdatePerformance_cases now id rating es)
      as [(Hr & _)|[(Hr & _)|(_ & _ & e & ev & Hemp & He & Hp & _)]];
      try (fold r in Hr; congruence).
    fold r in He, Hp.
    assert (nan ∈ history id es ++ [rating]) as Hin.
    { apply elem_of_app. destruct Hnan as [->|?]; [right|by left].
      by apply list_elem_of_singleton. }
    eexists. rewrite He, lookup_insert_eq. split; [reflexivity|].
    split.
    + simpl. by apply mean_with_nan.
    + unfold history. by rewrite Hp, lookup_insert_eq.
Qed.

(** The scenario record rated with a NaN. *)
Lemma nan_rating_witness :
  ret (UpdatePerformance 2 101 nan Scenario.created) = None ∧
  Performance <$> employees (post (UpdatePerformance 2 101 nan Scenario.created))
    !! 101%Z = Some nan.
Proof.
  destruct (nan_rating_poisons_score 2%Z 101%Z nan Scenario.created)
    as [Hacc Hpoison]; [by left|by eexists|].
  split; [by apply Hacc|].
  destruct (Hpoison (Hacc eq_refl)) as (e & He & Hp & _).
  rewrite He. simpl. by rewrite Hp.
Defined.

(** ** Reading back what was written *)

Lemma GetEmployee_ret (id : Z) (es : EmployeeSystem) :
  ret (GetEmployee id es)
  = match employees es !! id with
    | Some emp => (emp, None)
    | None => (Employee_zero, Some ErrEmployeeNotFound)
    end.
Proof. unfold GetEmployee, rlocked. simpl. by destruct (employees es !! id). Qed.

(** After a successful [AddEmployee], [GetEmployee] of the new identifier
    returns the record given, stamped with the time of the call, where
    before it returned [ErrEmployeeNotFound]; the history of the identifier
    is empty, the store has one record more, and every other identifier
    reads as before. *)
Theorem AddEmployee_then_GetEmployee {text : GoText} now woke emp id es :
  ret (AddEmployee now woke emp es) = None →
  let es' := post (AddEmployee now woke emp es) in
  ret (GetEmployee (ID emp) es) = (Employee_zero, Some ErrEmployeeNotFound) ∧
  ret (GetEmployee (ID emp) es') = (set_LastUpdated now emp, None) ∧
  history (ID emp) es' = [] ∧
  size (employees es') = S (size (employees es)) ∧
  (id ≠ ID emp →
     ret (GetEmployee id es') = ret (GetEmployee id es) ∧
     history id es' = history id es).
Proof.
  intros Hret es'.
  destruct (AddEmployee_cases now woke emp es)
    as [(Hr & _)|[(? & Hr & _)|[(Hr & _)|[(Hr & _)|
        (_ & _ & _ & _ & Hnone & ev & _ & _ & _ & He & Hp & _)]]]];
    try congruence.
  fold es' in He, Hp. rewrite !GetEmployee_ret. unfold history.
  rewrite He, Hp, Hnone, !lookup_insert_eq.
  split_and!; try done.
  - by apply map_size_insert_None.
  - intros Hne. by rewrite !lookup_insert_ne.
Qed.

Lemma AddEmployee_then_GetEmployee_witness :
  ret (GetEmployee 101 Scenario.created) = (Scenario.ann1, None).
Proof.
  exact (proj1 (proj2 (AddEmployee_then_GetEmployee (text := AsciiText)
                         1%Z false Scenario.ann 0%Z NewEmployeeSystem
                         eq_refl))).
Defined.

(** After a successful [UpdateEmployee], [GetEmployee] returns the record
    given, stamped with the time of the call.  The call touches nothing
    else: every history, every other record, the number of records, the
    statistics and the output stay as they were, and nothing is published,
    so the learning channel is as before. *)
Theorem UpdateEmployee_then_GetEmployee {text : GoText} now emp id es :
  ret (UpdateEmployee now emp es) = None →
  let r := UpdateEmployee now emp es in
  ret (GetEmployee (ID emp) (post r)) = (set_LastUpdated now emp, None) ∧
  history id (post r) = history id es ∧
  (id ≠ ID emp → ret (GetEmployee id (post r)) = ret (GetEmployee id es)) ∧
  size (employees (post r)) = size (employees es) ∧
  learningChan (post r) = learningChan es ∧
  positionStats (post r) = positionStats es ∧
  stdout (post r) = stdout es ∧
  Forall (λ ev, is_publish ev = false) (trace r).
Proof.
  intros Hret r.
  destruct (UpdateEmployee_cases now emp es)
    as [(Hr & _)|[(? & Hr & _)|[(Hr & _)|[(Hr & _)|
        (_ & _ & _ & _ & [old Hold] & Hpost & Ht)]]]];
    try congruence.
  fold r in Hpost, Ht. rewrite Hpost, Ht, !GetEmployee_ret. simpl.
  rewrite lookup_insert_eq. split_and!; try done.
  - intros Hne. by rewrite lookup_insert_ne.
  - apply map_size_insert_Some. by rewrite Hold.
  - by repeat constructor.
Qed.

Lemma UpdateEmployee_then_GetEmployee_witness :
  ret (GetEmployee 101
         (post (UpdateEmployee 4 Scenario.engineer Scenario.created)))
  = (set_LastUpdated 4 Scenario.engineer, None).
Proof.
  exact (proj1 (UpdateEmployee_then_GetEmployee (text := AsciiText)
                  4%Z Scenario.engineer 0%Z Scenario.created eq_refl)).
Defined.

Lemma copy_in_order {A} (l acc : list A) :
  fold_left (λ acc x, acc ++ [x]) l acc = acc ++ l.
Proof.
  revert acc. induction l as [|x l IH]; intros acc; simpl.
  - by rewrite app_nil_r.
  - by rewrite IH, <- app_assoc.
Qed.

(** [GetAllEmployees] returns every stored record exactly once: its result
    is a rearrangement of the records of the map, as long as the number of
    records, and it changes nothing. *)
Theorem GetAllEmployees_lists_the_store order es :
  enumerates order es →
  let r := GetAllEmployees order es in
  ret r ≡ₚ stored es ∧
  length (ret r) = size (employees es) ∧
  (∀ e, e ∈ ret r ↔ ∃ id, employees es !! id = Some e) ∧
  post r = es.
Proof.
  intros Horder r.
  assert (ret r = order) as -> by apply (copy_in_order order []).
  split_and!; try done.
  - rewrite Horder. unfold stored.
    by rewrite length_fmap, length_map_to_list.
  - intros e. rewrite Horder. unfold stored. rewrite list_elem_of_fmap. split.
    + intros ([id e'] & -> & Hin). exists id.
      by apply elem_of_map_to_list in Hin.
    + intros (id & Hid). exists (id, e). split; [done|].
      by apply elem_of_map_to_list.
Qed.

Lemma GetAllEmployees_witness :
  ret (GetAllEmployees [Scenario.ann1] Scenario.created) ≡ₚ [Scenario.ann1].
Proof.
  refine (proj1 (GetAllEmployees_lists_the_store [Scenario.ann1]
                   Scenario.created _)).
  unfold enumerates. vm_compute. reflexivity.
Defined.

(** ** What a step does to the store *)

Lemma learn_store now order emp es :
  employees (post (learn now order emp es)) = employees es ∧
  performance (post (learn now order emp es)) = performance es ∧
  learningChan (post (learn now order emp es)) = learningChan es ∧
  task (post (learn now order emp es)) = AtSelect.
Proof.
  unfold learn, locked. simpl.
  destruct (scan (Position emp) order) as [[totalPerf count] totalSalary].
  by destruct (0 <? count).
Qed.

(** Every step either leaves the records and the histories alone, or adds
    a valid record under a fresh identifier with an empty history, or
    replaces the record of a present identifier by a valid one, or appends
    a rating to a history and stores the mean in the record. *)
Lemma accepted_not_rejected {text : GoText} (emp : Employee) :
  (100 ≤ ID emp)%Z → validateName (Name emp) = None →
  validateSalary (Salary emp) = None → ¬ rejected emp.
Proof.
  intros Hid Hn Hs. apply validateSalary_None in Hs as [Hlo Hhi].
  intros [?|[?|[?|?]]]; congruence || lia.
Qed.

Lemma step_store {text : GoText} (es es' : EmployeeSystem) :
  step es es' →
  (employees es' = employees es ∧ performance es' = performance es)
  ∨ (∃ now emp, employees es !! ID emp = None ∧ ¬ rejected emp ∧
       employees es' = <[ID emp := set_LastUpdated now emp]> (employees es) ∧
       performance es' = <[ID emp := []]> (performance es))
  ∨ (∃ now emp, is_Some (employees es !! ID emp) ∧ ¬ rejected emp ∧
       employees es' = <[ID emp := set_LastUpdated now emp]> (employees es) ∧
       performance es' = performance es)
  ∨ (∃ now id rating emp, employees es !! id = Some emp ∧
       validateRating rating = None ∧
       employees es' = <[id := rated now (history id es) rating emp]>
                         (employees es) ∧
       performance es' = <[id := history id es ++ [rating]]> (performance es)).
Proof.
  destruct 1 as [now woke emp es|now emp es|now id rating es|id es|order es _
                |es es' Hs|es e q _ _|now order e es _ _|es _ _].
  - destruct (AddEmployee_cases now woke emp es)
      as [(_ & _ & -> & _)|[(? & _ & _ & _ & -> & _)|[(_ & _ & _ & _ & -> & _)|
          [(_ & _ & _ & _ & _ & -> & _)|
           (_ & Hid & Hn & Hs & Hnone & ev & _ & _ & _ & He & Hp & _)]]]];
      auto.
    right; left. exists now, emp.
    by pose proof (accepted_not_rejected emp Hid Hn Hs).
  - destruct (UpdateEmployee_cases now emp es)
      as [(_ & _ & -> & _)|[(? & _ & _ & _ & -> & _)|[(_ & _ & _ & _ & -> & _)|
          [(_ & _ & _ & _ & _ & -> & _)|(_ & Hid & Hn & Hs & Hex & -> & _)]]]];
      auto.
    right; right; left. exists now, emp.
    by pose proof (accepted_not_rejected emp Hid Hn Hs).
  - destruct (UpdatePerformance_cases now id rating es)
      as [(_ & _ & -> & _)|[(_ & _ & _ & -> & _)|
          (_ & Hv & emp & ev & Hemp & He & Hp & _)]]; auto.
    right; right; right. by exists now, id, rating, emp.
  - left. unfold GetEmployee, rlocked. simpl. by destruct (employees es !! id).
  - by left.
  - left. unfold Shutdown in Hs. destruct (done es); [discriminate|].
    by injection Hs as <-.
  - by left.
  - left. by destruct (learn_store now order e es) as (? & ? & _).
  - by left.
Qed.

(** ** Invariants of the reachable states *)

Lemma reachable_ind {text : GoText} (P : EmployeeSystem → Prop) :
  P NewEmployeeSystem →
  (∀ es es', reachable es → P es → step es es' → P es') →
  ∀ es, reachable es → P es.
Proof.
  intros Hnew Hstep. unfold reachable in *.
  apply rtc_ind_r; [exact Hnew|].
  intros es1 es2 Hsteps Hlast IH. by apply (Hstep es1).
Qed.

Lemma not_rejected_accepted {text : GoText} (emp : Employee) :
  ¬ rejected emp →
  (100 ≤ ID emp)%Z ∧ validateName (Name emp) = None ∧
  validateSalary (Salary emp) = None.
Proof.
  intros Hok. split_and!.
  - destruct (Z.lt_ge_cases (ID emp) 100); [|done]. exfalso. apply Hok. by left.
  - destruct (validateName (Name emp)) eqn:Hn; [|done].
    exfalso. apply Hok. right; left. congruence.
  - apply validateSalary_None. split.
    + destruct (PrimFloat.ltb (Salary emp) 20000) eqn:E; [|done].
      exfalso. apply Hok. by right; right; left.
    + destruct (PrimFloat.ltb 2000000 (Salary emp)) eqn:E; [|done].
      exfalso. apply Hok. by right; right; right.
Qed.

Lemma step_well_formed {text : GoText} (es es' : EmployeeSystem) :
  store_well_formed es → step es es' → store_well_formed es'.
Proof.
  intros [Hrec Hdom] Hstep.
  destruct (step_store es es' Hstep)
    as [[He Hp]|[(now & emp & Hnone & Hok & He & Hp)|
        [(now & emp & Hex & Hok & He & Hp)|
         (now & id & rating & emp & Hemp & Hv & He & Hp)]]];
    unfold store_well_formed; rewrite He, Hp.
  - done.
  - apply not_rejected_accepted in Hok as (Hid & Hn & Hs). split.
    + intros id e. destruct (decide (ID emp = id)) as [<-|Hne].
      * rewrite lookup_insert_eq. by intros [= <-].
      * rewrite lookup_insert_ne by done. apply Hrec.
    + intros id. destruct (decide (ID emp = id)) as [<-|Hne].
      * by rewrite !lookup_insert_eq.
      * rewrite !lookup_insert_ne by done. apply Hdom.
  - apply not_rejected_accepted in Hok as (Hid & Hn & Hs). split.
    + intros id e. destruct (decide (ID emp = id)) as [<-|Hne].
      * rewrite lookup_insert_eq. by intros [= <-].
      * rewrite lookup_insert_ne by done. apply Hrec.
    + intros id. destruct (decide (ID emp = id)) as [<-|Hne].
      * rewrite lookup_insert_eq, Hdom. by split.
      * rewrite lookup_insert_ne by done. apply Hdom.
  - split.
    + intros id' e. destruct (decide (id = id')) as [<-|Hne].
      * rewrite lookup_insert_eq. intros [= <-]. by apply Hrec in Hemp.
      * rewrite lookup_insert_ne by done. apply Hrec.
    + intros id'. destruct (decide (id = id')) as [<-|Hne].
      * rewrite !lookup_insert_eq. by split.
      * rewrite !lookup_insert_ne by done. apply Hdom.
Qed.

Lemma reachable_well_formed {text : GoText} (es : EmployeeSystem) :
  reachable es → store_well_formed es.
Proof.
  revert es. apply reachable_ind.
  - split.
    + intros id e Hemp. simpl in Hemp. by rewrite lookup_empty in Hemp.
    + intros id. simpl. by rewrite !lookup_empty.
  - intros es es' _ Hwf Hstep. by apply (step_well_formed es).
Qed.

(** In every reachable state each stored record carries its own key as
    identifier, an identifier of at least 100, a name and a salary that
    pass validation; and an identifier has a history exactly when it has a
    record. *)
Theorem reachable_store_is_valid {text : GoText} (es : EmployeeSystem)
    (id : Z) (e : Employee) :
  reachable es →
  (employees es !! id = Some e →
     ID e = id ∧ (100 ≤ id)%Z ∧ validateName (Name e) = None ∧
     validateSalary (Salary e) = None) ∧
  (is_Some (performance es !! id) ↔ is_Some (employees es !! id)).
Proof.
  intros Hreach. destruct (reachable_well_formed es Hreach) as [Hrec Hdom].
  split; [apply Hrec|apply Hdom].
Qed.

Lemma reachable_store_witness :
  is_Some (performance Scenario.rated_once !! 101%Z) ↔
  is_Some (employees Scenario.rated_once !! 101%Z).
Proof.
  refine (proj2 (reachable_store_is_valid (text := AsciiText)
                   Scenario.rated_once 101%Z Scenario.ann _)).
  eapply rtc_l; [apply (step_AddEmployee 1 false Scenario.ann)|].
  apply rtc_once, (step_UpdatePerformance 2 101 4).
Defined.

Lemma step_grows {text : GoText} (es es' : EmployeeSystem) (id : Z) :
  store_well_formed es → step es es' →
  (is_Some (employees es !! id) → is_Some (employees es' !! id)) ∧
  history id es `prefix_of` history id es' ∧
  size (employees es) ≤ size (employees es').
Proof.
  intros [Hrec Hdom] Hstep. unfold history.
  destruct (step_store es es' Hstep)
    as [[He Hp]|[(now & emp & Hnone & Hok & He & Hp)|
        [(now & emp & Hex & Hok & He & Hp)|
         (now & id' & rating & emp & Hemp & Hv & He & Hp)]]];
    rewrite He, Hp.
  - done.
  - split_and!.
    + destruct (decide (ID emp = id)) as [<-|Hne].
      * by rewrite lookup_insert_eq.
      * by rewrite lookup_insert_ne.
    + destruct (decide (ID emp = id)) as [<-|Hne].
      * rewrite lookup_insert_eq.
        assert (performance es !! ID emp = None) as ->; [|done].
        apply eq_None_not_Some. rewrite Hdom, Hnone. apply is_Some_None.
      * by rewrite lookup_insert_ne.
    + rewrite map_size_insert_None by done. lia.
  - split_and!; [|done|].
    + destruct (decide (ID emp = id)) as [<-|Hne].
      * by rewrite lookup_insert_eq.
      * by rewrite lookup_insert_ne.
    + by rewrite map_size_insert_Some.
  - split_and!.
    + destruct (decide (id' = id)) as [<-|Hne].
      * by rewrite lookup_insert_eq.
      * by rewrite lookup_insert_ne.
    + destruct (decide (id' = id)) as [<-|Hne].
      * rewrite lookup_insert_eq. simpl. by apply prefix_app_r.
      * by rewrite lookup_insert_ne.
    + by rewrite map_size_insert_Some by (by rewrite Hemp).
Qed.

(** Along every execution the store only grows: from a reachable state on,
    no later state has lost a record, the number of records never
    decreases, and the history of every identifier only gets ratings
    appended. *)
Theorem store_only_grows {text : GoText} (es es' : EmployeeSystem) (id : Z) :
  reachable es → rtc step es es' →
  (is_Some (employees es !! id) → is_Some (employees es' !! id)) ∧
  history id es `prefix_of` history id es' ∧
  size (employees es) ≤ size (employees es').
Proof.
  intros Hreach. revert es'. apply rtc_ind_r; [done|].
  intros es1 es2 Hsteps Hlast (Hdom & Hpre & Hsize).
  assert (store_well_formed es1) as Hwf.
  { apply reachable_well_formed. unfold reachable in *. by etrans. }
  destruct (step_grows es1 es2 id Hwf Hlast) as (Hdom' & Hpre' & Hsize').
  split_and!; [auto| by etrans | lia].
Qed.

Lemma store_only_grows_witness :
  history 101 Scenario.created `prefix_of` history 101 Scenario.rated_twice.
Proof.
  refine (proj1 (proj2 (store_only_grows (text := AsciiText)
                          Scenario.created Scenario.rated_twice 101%Z _ _))).
  - apply rtc_once, (step_AddEmployee 1 false Scenario.ann).
  - eapply rtc_l; [apply (step_UpdatePerformance 2 101 4)|].
    apply rtc_once, (step_UpdatePerformance 3 101 5).
Defined.

(** ** The learning channel *)

Lemma AddEmployee_success {text : GoText} now woke emp es :
  ret (AddEmployee now woke emp es) = None →
  post (AddEmployee now woke emp es)
    = (send_or_timeout woke (set_LastUpdated now emp) (added now emp es)).1 ∧
  trace (AddEmployee now woke emp es)
    = [EvLock;
       (send_or_timeout woke (set_LastUpdated now emp) (added now emp es)).2;
       EvUnlock].
Proof.
  unfold AddEmployee, locked, added.
  destruct (ID emp <? 100)%Z; [discriminate|].
  destruct (validateName (Name emp)); [discriminate|].
  destruct (validateSalary (Salary emp)); [discriminate|]. simpl.
  destruct (exists_employee (ID emp) es); [discriminate|]. simpl.
  by destruct (send_or_timeout _ _ _).
Qed.

Lemma send_or_timeout_outcome woke e es :
  let r := send_or_timeout woke e es in
  (r.2 = EvSend e ∧ pending r.1 = pending es ++ [e] ∧
   stdout r.1 = stdout es ∧
   (has_room es = true →
      learningChan r.1 = learningChan es ++ [e] ∧ task r.1 = task es) ∧
   (length (learningChan es) ≤ chanCap →
      length (learningChan r.1) ≤ chanCap))
  ∨ (r.2 = EvTimeout e ∧ has_room es = false ∧
     learningChan r.1 = learningChan es ∧ task r.1 = task es ∧
     stdout r.1 = stdout es ++ [WarnBusy (Name e)]).
Proof.
  unfold send_or_timeout, pending.
  destruct (has_room es) eqn:Hroom; simpl.
  - left. split_and!; try done.
    + by destruct (task es).
    + intros _. apply Nat.ltb_lt in Hroom. rewrite length_app. simpl. lia.
  - destruct woke, (task es) eqn:Htask, (learningChan es) as [|e0 q] eqn:Hq;
      simpl; try (by right).
    left. split_and!; try done.
    rewrite length_app. simpl. lia.
Qed.

Lemma send_or_skip_outcome e es :
  let r := send_or_skip e es in
  task r.1 = task es ∧ stdout r.1 = stdout es ∧
  ((r.2 = EvSend e ∧ has_room es = true ∧
    learningChan r.1 = learningChan es ++ [e])
   ∨ (r.2 = EvSkip e ∧ has_room es = false ∧
      learningChan r.1 = learningChan es)).
Proof.
  unfold send_or_skip. destruct (has_room es); simpl; auto 10.
Qed.

Lemma UpdatePerformance_success now id rating es :
  ret (UpdatePerformance now id rating es) = None →
  ∃ emp, employees es !! id = Some emp ∧
    let rec := rated now (history id es) rating emp in
    post (UpdatePerformance now id rating es)
      = (send_or_skip rec (appended now id rating emp es)).1 ∧
    trace (UpdatePerformance now id rating es)
      = [EvLock; (send_or_skip rec (appended now id rating emp es)).2;
         EvUnlock].
Proof.
  unfold UpdatePerformance, locked, appended, rated.
  destruct (validateRating rating); [discriminate|]. simpl.
  destruct (employees es !! id) as [emp|]; [|discriminate]. simpl.
  intros _. exists emp. split; [done|].
  assert (history id (set_performance
                        (<[id := history id es ++ [rating]]> (performance es))
                        es) = history id es ++ [rating]) as ->.
  { unfold history at 1. simpl. by rewrite lookup_insert_eq. }
  by destruct (send_or_skip _ _).
Qed.

Lemma AddEmployee_failure {text : GoText} now woke emp es err :
  ret (AddEmployee now woke emp es) = Some err →
  post (AddEmployee now woke emp es) = es.
Proof.
  intros Hret.
  destruct (AddEmployee_cases now woke emp es)
    as [(_ & _ & -> & _)|[(? & _ & _ & _ & -> & _)|[(_ & _ & _ & _ & -> & _)|
        [(_ & _ & _ & _ & _ & -> & _)|(Hr & _)]]]]; congruence.
Qed.

Lemma UpdatePerformance_failure now id rating es err :
  ret (UpdatePerformance now id rating es) = Some err →
  post (UpdatePerformance now id rating es) = es.
Proof.
  intros Hret.
  destruct (UpdatePerformance_cases now id rating es)
    as [(_ & _ & -> & _)|[(_ & _ & _ & -> & _)|(Hr & _)]]; congruence.
Qed.

Lemma UpdateEmployee_pipeline {text : GoText} now emp es :
  learningChan (post (UpdateEmployee now emp es)) = learningChan es ∧
  task (post (UpdateEmployee now emp es)) = task es ∧
  positionStats (post (UpdateEmployee now emp es)) = positionStats es ∧
  stdout (post (UpdateEmployee now emp es)) = stdout es.
Proof.
  destruct (UpdateEmployee_cases now emp es)
    as [(_ & _ & -> & _)|[(? & _ & _ & _ & -> & _)|[(_ & _ & _ & _ & -> & _)|
        [(_ & _ & _ & _ & _ & -> & _)|(_ & _ & _ & _ & _ & -> & _)]]]]; done.
Qed.

(** What a step does to the events in flight: nothing, or it puts a record
    it has just stored at the back, or the goroutine finishes with the one
    at the front.  The channel stays within its capacity. *)
Lemma step_pipeline {text : GoText} (es es' : EmployeeSystem) :
  step es es' → store_well_formed es →
  (length (learningChan es) ≤ chanCap → length (learningChan es') ≤ chanCap) ∧
  (pending es' = pending es
   ∨ (∃ e, pending es' = pending es ++ [e] ∧ employees es' !! ID e = Some e)
   ∨ (∃ e, task es = Received e ∧ pending es = e :: pending es')).
Proof.
  intros Hstep [Hrec _].
  destruct Hstep as [now woke emp es|now emp es|now id rating es|id es|order es _
                |es es' Hs|es e q Htask Hq|now order e es Htask _|es Htask _].
  - destruct (ret (AddEmployee now woke emp es)) as [err|] eqn:Hret.
    { rewrite (AddEmployee_failure _ _ _ _ _ Hret). auto. }
    destruct (AddEmployee_success now woke emp es Hret) as [-> _].
    pose proof (send_or_timeout_store woke (set_LastUpdated now emp)
                  (added now emp es)) as [He _].
    destruct (send_or_timeout_outcome woke (set_LastUpdated now emp)
                (added now emp es))
      as [(_ & Hpend & _ & _ & Hlen)|(_ & _ & Hq & Ht & _)].
    + split; [exact Hlen|]. right; left. eexists. split; [exact Hpend|].
      rewrite He. simpl. by rewrite lookup_insert_eq.
    + split; [by rewrite Hq|]. left. unfold pending. by rewrite Hq, Ht.
  - destruct (UpdateEmployee_pipeline now emp es) as (Hq & Ht & _).
    split; [by rewrite Hq|]. left. unfold pending. by rewrite Hq, Ht.
  - destruct (ret (UpdatePerformance now id rating es)) as [err|] eqn:Hret.
    { rewrite (UpdatePerformance_failure _ _ _ _ _ Hret). auto. }
    destruct (UpdatePerformance_success now id rating es Hret)
      as (emp & Hemp & -> & _).
    pose proof (send_or_skip_store (rated now (history id es) rating emp)
                  (appended now id rating emp es)) as [He _].
    destruct (send_or_skip_outcome (rated now (history id es) rating emp)
                (appended now id rating emp es))
      as (Ht & _ & [(_ & Hroom & Hq)|(_ & _ & Hq)]).
    + split.
      * intros _. rewrite Hq, length_app. simpl.
        apply Nat.ltb_lt in Hroom. simpl in Hroom. lia.
      * right; left. eexists. split.
        -- unfold pending. rewrite Hq, Ht. simpl. by destruct (task es).
        -- rewrite He. simpl. apply Hrec in Hemp as [-> _].
           by rewrite lookup_insert_eq.
    + split; [by rewrite Hq|]. left. unfold pending. by rewrite Hq, Ht.
  - assert (post (GetEmployee id es) = es) as ->; [|auto].
    unfold GetEmployee, rlocked. simpl. by destruct (employees es !! id).
  - auto.
  - unfold Shutdown in Hs. destruct (done es); [discriminate|].
    injection Hs as <-. auto.
  - split.
    + simpl. rewrite Hq. simpl. lia.
    + left. unfold pending. simpl. by rewrite Htask, Hq.
  - destruct (learn_store now order e es) as (_ & _ & Hq & Ht).
    split; [by rewrite Hq|]. right; right. exists e. split; [done|].
    unfold pending. by rewrite Ht, Htask, Hq.
  - split; [done|]. left. unfold pending. simpl. by rewrite Htask.
Qed.

(** The learning channel never holds more than its capacity of 100
    records, in any reachable state. *)
Theorem channel_never_overflows {text : GoText} (es : EmployeeSystem) :
  reachable es → length (learningChan es) ≤ 100.
Proof.
  revert es. apply reachable_ind; [simpl; lia|].
  intros es es' Hreach Hlen Hstep.
  by apply (step_pipeline es es' Hstep (reachable_well_formed es Hreach)).
Qed.

Lemma channel_never_overflows_witness :
  length (learningChan Scenario.rated_once) ≤ 100.
Proof.
  apply (channel_never_overflows (text := AsciiText)).
  eapply rtc_l; [apply (step_AddEmployee 1 false Scenario.ann)|].
  apply rtc_once, (step_UpdatePerformance 2 101 4).
Defined.

(** Events are handled in the order of their publication.  A step of a
    reachable system leaves the events in flight as they are, or appends
    at the back a record that is, at that moment, the stored record of its
    identifier, or removes the front one, which the goroutine held and has
    now processed. *)
Theorem events_are_first_in_first_out {text : GoText}
    (es es' : EmployeeSystem) :
  reachable es → step es es' →
  pending es' = pending es
  ∨ (∃ e, pending es' = pending es ++ [e] ∧ employees es' !! ID e = Some e)
  ∨ (∃ e, task es = Received e ∧ pending es = e :: pending es').
Proof.
  intros Hreach Hstep.
  by apply (step_pipeline es es' Hstep (reachable_well_formed es Hreach)).
Qed.

Lemma events_fifo_witness :
  pending Scenario.created = pending NewEmployeeSystem ++ [Scenario.ann1].
Proof.
  destruct (events_are_first_in_first_out (text := AsciiText)
              NewEmployeeSystem Scenario.created)
    as [Hsame|[(e & Happ & He)|(e & Htask & _)]].
  - apply rtc_refl.
  - apply (step_AddEmployee 1 false Scenario.ann).
  - vm_compute in Hsame. discriminate Hsame.
  - reflexivity.
  - discriminate Htask.
Defined.

(** Every event in flight names a stored employee: in a reachable state
    the identifier of each record in the channel, and of the record the
    goroutine holds, is at least 100 and has a record in the store. *)
Theorem events_name_stored_employees {text : GoText}
    (es : EmployeeSystem) (e : Employee) :
  reachable es → e ∈ pending es →
  (100 ≤ ID e)%Z ∧ is_Some (employees es !! ID e).
Proof.
  intros Hreach. revert es Hreach e.
  apply (reachable_ind (λ es, ∀ e, e ∈ pending es →
           (100 ≤ ID e)%Z ∧ is_Some (employees es !! ID e))).
  { intros e Hin. by apply elem_of_nil in Hin. }
  intros es es' Hreach IH Hstep e Hin.
  pose proof (reachable_well_formed es Hreach) as Hwf.
  assert (∀ id, is_Some (employees es !! id) → is_Some (employees es' !! id))
    as Hkeep by (intros id; by apply (step_grows es es' id Hwf Hstep)).
  assert (reachable es') as Hreach'.
  { unfold reachable in *. eapply rtc_r; eauto. }
  destruct (step_pipeline es es' Hstep Hwf)
    as [_ [Hsame|[(e' & Happ & He')|(e' & _ & Htail)]]].
  - rewrite Hsame in Hin. destruct (IH e Hin) as [? ?]. auto.
  - rewrite Happ in Hin. apply elem_of_app in Hin as [Hin|Hin].
    + destruct (IH e Hin) as [? ?]. auto.
    + apply list_elem_of_singleton in Hin as ->. split; [|by rewrite He'].
      destruct (reachable_well_formed es' Hreach') as [Hrec _].
      by apply Hrec in He' as (_ & ? & _).
  - assert (e ∈ pending es) as Hin'.
    { rewrite Htail. by apply list_elem_of_further. }
    destruct (IH e Hin') as [? ?]. auto.
Qed.

Lemma events_name_stored_witness :
  is_Some (employees Scenario.taken !! 101%Z).
Proof.
  refine (proj2 (events_name_stored_employees (text := AsciiText)
                   Scenario.taken Scenario.ann1 _ _)).
  - eapply rtc_l; [apply (step_AddEmployee 1 false Scenario.ann)|].
    apply rtc_once. apply (step_receive _ Scenario.ann1 []); reflexivity.
  - apply list_elem_of_here.
Defined.

(** ** The statistics *)

Lemma learn_positionStats now order emp es :
  let ms := members (Position emp) order in
  positionStats (post (learn now order emp es))
  = if 0 <? length ms then
      <[Position emp :=
          {| AvgPerformance :=
               F64.sum (Performance <$> ms) / F64.of_nat (length ms);
             EmployeeCount := length ms;
             TotalSalary := F64.sum (Salary <$> ms);
             StatsLastUpdated := now |}]> (positionStats es)
    else positionStats es.
Proof.
  intros ms. unfold learn, locked. rewrite scan_members. fold ms.
  by destruct (0 <? length ms).
Qed.

Lemma members_length_le (p : string) (l : list Employee) :
  length (members p l) ≤ length l.
Proof. apply length_filter. Qed.

Lemma enumerates_length order es :
  enumerates order es → length order = size (employees es).
Proof.
  intros Horder. rewrite Horder.
  by rewrite length_fmap, length_map_to_list.
Qed.

(** A stored snapshot never counts zero employees, and never more than the
    store holds: in every reachable state each entry of the statistics has
    a count between 1 and the number of records. *)
Theorem statistics_count_bounds {text : GoText}
    (es : EmployeeSystem) (p : string) (st : PositionStats) :
  reachable es → positionStats es !! p = Some st →
  1 ≤ EmployeeCount st ≤ size (employees es).
Proof.
  intros Hreach. revert es Hreach p st.
  apply (reachable_ind (λ es, ∀ p st, positionStats es !! p = Some st →
           1 ≤ EmployeeCount st ≤ size (employees es))).
  { intros p st Hst. simpl in Hst. by rewrite lookup_empty in Hst. }
  intros es es' Hreach IH Hstep p st Hst.
  pose proof (reachable_well_formed es Hreach) as Hwf.
  assert (size (employees es) ≤ size (employees es')) as Hsize
    by apply (step_grows es es' 0%Z Hwf Hstep).
  assert (positionStats es' = positionStats es ∨
          ∃ now order e, enumerates order es ∧ es' = post (learn now order e es))
    as [Hsame|(now & order & e & Horder & ->)].
  { destruct Hstep as [now woke emp es|now emp es|now id rating es|id es
                      |order es _|es es' Hs|es e q _ _|now order e es _ Ho|es _ _].
    - left. destruct (AddEmployee_cases now woke emp es)
        as [(_ & _ & -> & _)|[(? & _ & _ & _ & -> & _)|[(_ & _ & _ & _ & -> & _)|
            [(_ & _ & _ & _ & _ & -> & _)|
             (_ & _ & _ & _ & _ & ev & _ & _ & _ & _ & _ & Hst' & _)]]]]; done.
    - left. by destruct (UpdateEmployee_pipeline now emp es) as (_ & _ & ? & _).
    - left. destruct (UpdatePerformance_cases now id rating es)
        as [(_ & _ & -> & _)|[(_ & _ & _ & -> & _)|
            (_ & _ & emp & ev & _ & _ & _ & Hst' & _)]]; done.
    - left. unfold GetEmployee, rlocked. simpl. by destruct (employees es !! id).
    - by left.
    - left. unfold Shutdown in Hs. destruct (done es); [discriminate|].
      by injection Hs as <-.
    - by left.
    - right. eauto.
    - by left. }
  - rewrite Hsame in Hst. specialize (IH p st Hst). lia.
  - rewrite learn_positionStats in Hst.
    destruct (Nat.ltb_spec 0 (length (members (Position e) order))) as [Hpos|_].
    + destruct (decide (Position e = p)) as [<-|Hne].
      * rewrite lookup_insert_eq in Hst. injection Hst as <-. simpl.
        pose proof (members_length_le (Position e) order).
        pose proof (enumerates_length order es Horder). lia.
      * rewrite lookup_insert_ne in Hst by done. specialize (IH p st Hst). lia.
    + specialize (IH p st Hst). lia.
Qed.

Lemma statistics_count_witness :
  1 ≤ 1 ≤ size (employees Scenario.counted).
Proof.
  refine (statistics_count_bounds (text := AsciiText) Scenario.counted "Lead"
            {| AvgPerformance := 0; EmployeeCount := 1; TotalSalary := 60000;
               StatsLastUpdated := 2 |} _ _).
  - eapply rtc_l; [apply (step_AddEmployee 1 false Scenario.ann)|].
    eapply rtc_l; [apply (step_receive _ Scenario.ann1 []); reflexivity|].
    apply rtc_once.
    apply (step_learn 2 [Scenario.ann1] Scenario.ann1); [reflexivity|].
    unfold enumerates. vm_compute. reflexivity.
  - reflexivity.
Defined.

(** ** Runs of ratings *)

Lemma UpdatePerformance_accepts now id rating es emp :
  employees es !! id = Some emp → validateRating rating = None →
  let r := UpdatePerformance now id rating es in
  ret r = None ∧
  employees (post r) !! id = Some (rated now (history id es) rating emp) ∧
  history id (post r) = history id es ++ [rating].
Proof.
  intros Hemp Hv r.
  destruct (UpdatePerformance_cases now id rating es)
    as [(_ & Hout & _)|[(_ & _ & Hnone & _)|
        (Hr & _ & emp' & ev & Hemp' & He & Hp & _)]].
  - apply validateRating_None in Hv as [? ?]. destruct Hout; congruence.
  - congruence.
  - fold r in Hr, He, Hp. assert (emp' = emp) as -> by congruence.
    split; [done|]. unfold history at 2.
    by rewrite He, Hp, !lookup_insert_eq.
Qed.

(** Any number of ratings.  For a stored employee, a run of ratings that
    each pass validation appends them all to the history, in order, and
    leaves as performance the mean of the whole history: the sum from 0.0,
    taken from the oldest rating to the newest, divided by their number. *)
Theorem ratings_accumulate (id : Z) (ratings : list (Time * float))
    (es : EmployeeSystem) :
  is_Some (employees es !! id) →
  Forall (λ nr, validateRating nr.2 = None) ratings →
  ratings ≠ [] →
  let es' := rate_all id ratings es in
  history id es' = history id es ++ ratings.*2 ∧
  ∃ e, employees es' !! id = Some e ∧
    Performance e
    = (F64.sum (history id es ++ ratings.*2)
       / F64.of_nat (length (history id es) + length ratings))%float.
Proof.
  revert es. induction ratings as [|[now rating] rest IH];
    intros es [emp Hemp] Hall Hne; [done|]. simpl.
  apply Forall_cons in Hall as [Hv Hall]. simpl in Hv.
  destruct (UpdatePerformance_accepts now id rating es emp Hemp Hv)
    as (_ & Hemp1 & Hh1).
  destruct rest as [|nr rest'].
  - simpl. split; [exact Hh1|]. eexists. split; [exact Hemp1|].
    simpl. unfold mean. by rewrite length_app.
  - destruct (IH (post (UpdatePerformance now id rating es)))
      as (Hh & e & He & Hperf); [by eexists|done|done|].
    rewrite Hh1, <- app_assoc in Hh, Hperf. simpl in Hh, Hperf.
    split; [exact Hh|]. exists e. split; [exact He|].
    rewrite Hperf. do 2 f_equal. rewrite !length_app. simpl. lia.
Qed.

(** Three ratings of the scenario record. *)
Lemma ratings_accumulate_witness :
  Performance <$>
    employees (rate_all 101 [(2%Z, 4%float); (3%Z, 5%float); (4%Z, 3%float)]
                 Scenario.created) !! 101%Z
  = Some 4%float.
Proof.
  destruct (ratings_accumulate 101 [(2%Z, 4%float); (3%Z, 5%float);
                                    (4%Z, 3%float)] Scenario.created)
    as (_ & e & He & Hperf).
  - by eexists.
  - repeat constructor.
  - discriminate.
  - rewrite He. simpl. rewrite Hperf. reflexivity.
Defined.

(** ** Dropped events *)

(** A successful [AddEmployee] has committed the record whatever became of
    the event.  With room in the channel the record is appended to it and
    nothing is printed.  When the send times out the channel was full and
    stays as it was, and the warning naming the employee is printed.  There
    is no third outcome. *)
Theorem AddEmployee_publishes_or_warns {text : GoText} now woke emp es :
  ret (AddEmployee now woke emp es) = None →
  let r := AddEmployee now woke emp es in
  let rec := set_LastUpdated now emp in
  employees (post r) !! ID emp = Some rec ∧
  (trace r = [EvLock; EvSend rec; EvUnlock] ∨
   trace r = [EvLock; EvTimeout rec; EvUnlock]) ∧
  (length (learningChan es) < 100 →
     trace r = [EvLock; EvSend rec; EvUnlock] ∧
     learningChan (post r) = learningChan es ++ [rec] ∧
     stdout (post r) = stdout es) ∧
  (trace r = [EvLock; EvTimeout rec; EvUnlock] →
     100 ≤ length (learningChan es) ∧
     learningChan (post r) = learningChan es ∧
     stdout (post r) = stdout es ++ [WarnBusy (Name emp)]).
Proof.
  intros Hret r rec.
  destruct (AddEmployee_success now woke emp es Hret) as [Hpost Htrace].
  fold r rec in Hpost, Htrace. rewrite Hpost, Htrace.
  pose proof (send_or_timeout_store woke rec (added now emp es)) as [He _].
  assert (has_room (added now emp es) = true ↔
          length (learningChan es) < 100) as Hroom by apply Nat.ltb_lt.
  destruct (send_or_timeout_outcome woke rec (added now emp es))
    as [(Hev & _ & Hout & Hsent & _)|(Hev & Hfull & Hq & _ & Hout)];
    rewrite Hev.
  - split_and!.
    + rewrite He. simpl. apply lookup_insert_eq.
    + by left.
    + intros Hlt. apply Hroom in Hlt. by destruct (Hsent Hlt) as [-> _].
    + discriminate.
  - split_and!.
    + rewrite He. simpl. apply lookup_insert_eq.
    + by right.
    + intros Hlt. apply Hroom in Hlt. congruence.
    + intros _. split_and!; try done.
      destruct (Nat.le_gt_cases 100 (length (learningChan es))); [done|].
      assert (has_room (added now emp es) = true) by by apply Hroom.
      congruence.
Qed.

(** On the saturated system the record is stored and the warning printed. *)
Lemma AddEmployee_warns_witness :
  let bob :=
    {| ID := 102; Name := "Bob"; Position := "Clerk"; Salary := 30000;
       Performance := 0; LastUpdated := 0 |} in
  let r := AddEmployee 5 false bob Scenario.saturated in
  employees (post r) !! 102%Z = Some (set_LastUpdated 5 bob) ∧
  stdout (post r) = [WarnBusy "Bob"].
Proof.
  intros bob r.
  destruct (AddEmployee_publishes_or_warns (text := AsciiText)
              5%Z false bob Scenario.saturated eq_refl)
    as (Hstored & _ & _ & Hwarn).
  split; [exact Hstored|].
  destruct (Hwarn eq_refl) as (_ & _ & Hout). exact Hout.
Defined.

(** A successful [UpdatePerformance] has stored the new mean whatever
    became of the event.  With room in the channel the rated record is
    appended to it; with a full channel the event is dropped: the channel
    stays as it was.  Either way nothing is printed. *)
Theorem UpdatePerformance_publishes_or_drops now id rating es :
  ret (UpdatePerformance now id rating es) = None →
  let r := UpdatePerformance now id rating es in
  ∃ emp, employees es !! id = Some emp ∧
    let rec := rated now (history id es) rating emp in
    employees (post r) !! id = Some rec ∧
    stdout (post r) = stdout es ∧
    (length (learningChan es) < 100 →
       trace r = [EvLock; EvSend rec; EvUnlock] ∧
       learningChan (post r) = learningChan es ++ [rec]) ∧
    (100 ≤ length (learningChan es) →
       trace r = [EvLock; EvSkip rec; EvUnlock] ∧
       learningChan (post r) = learningChan es).
Proof.
  intros Hret r.
  destruct (UpdatePerformance_success now id rating es Hret)
    as (emp & Hemp & Hpost & Htrace).
  exists emp. split; [exact Hemp|]. intros rec.
  fold r rec in Hpost, Htrace. rewrite Hpost, Htrace.
  pose proof (send_or_skip_store rec (appended now id rating emp es))
    as [He _].
  assert (has_room (appended now id rating emp es) = true ↔
          length (learningChan es) < 100) as Hroom by apply Nat.ltb_lt.
  destruct (send_or_skip_outcome rec (appended now id rating emp es))
    as (_ & Hout & [(Hev & Hfree & Hq)|(Hev & Hfull & Hq)]); rewrite Hev.
  - split_and!; try done.
    + rewrite He. simpl. apply lookup_insert_eq.
    + intros Hge. apply Hroom in Hfree. lia.
  - split_and!; try done.
    + rewrite He. simpl. apply lookup_insert_eq.
    + intros Hlt. apply Hroom in Hlt. congruence.
Qed.

Lemma UpdatePerformance_drops_witness :
  let r := UpdatePerformance 5 101 4 Scenario.saturated in
  Performance <$> employees (post r) !! 101%Z = Some 4%float ∧
  learningChan (post r) = learningChan Scenario.saturated ∧
  stdout (post r) = [].
Proof.
  intros r.
  destruct (UpdatePerformance_publishes_or_drops 5%Z 101%Z 4%float
              Scenario.saturated eq_refl)
    as (emp & Hemp & Hstored & Hout & _ & Hfull).
  injection Hemp as <-. split_and!.
  - fold r in Hstored. by rewrite Hstored.
  - apply Hfull. vm_compute. lia.
  - exact Hout.
Defined.

(** ** Shutdown and the store *)

(** [Shutdown] does not stop the store.  After it has returned, every
    method of the store returns what it would have returned before and
    changes the system in the same way; the only difference is that the
    [done] channel is closed. *)
Theorem Shutdown_does_not_stop_the_store {text : GoText}
    now woke emp id rating es es' :
  Shutdown es = Ok es' →
  es' = set_done true es ∧
  AddEmployee now woke emp es'
    = Result (ret (AddEmployee now woke emp es))
        (set_done true (post (AddEmployee now woke emp es)))
        (trace (AddEmployee now woke emp es)) ∧
  UpdateEmployee now emp es'
    = Result (ret (UpdateEmployee now emp es))
        (set_done true (post (UpdateEmployee now emp es)))
        (trace (UpdateEmployee now emp es)) ∧
  UpdatePerformance now id rating es'
    = Result (ret (UpdatePerformance now id rating es))
        (set_done true (post (UpdatePerformance now id rating es)))
        (trace (UpdatePerformance now id rating es)) ∧
  GetEmployee id es'
    = Result (ret (GetEmployee id es))
        (set_done true (post (GetEmployee id es)))
        (trace (GetEmployee id es)).
Proof.
  unfold Shutdown. destruct (done es); [discriminate|]. intros [= <-].
  split; [done|]. split_and!.
  - unfold AddEmployee, locked, exists_employee. simpl.
    destruct (ID emp <? 100)%Z; [done|].
    destruct (validateName (Name emp)); [done|].
    destruct (validateSalary (Salary emp)); [done|].
    case_bool_decide; [done|]. simpl.
    unfold send_or_timeout, has_room. simpl.
    destruct (_ <? chanCap); [done|].
    by destruct woke, (task es), (learningChan es).
  - unfold UpdateEmployee, locked, exists_employee. simpl.
    destruct (ID emp <? 100)%Z; [done|].
    destruct (validateName (Name emp)); [done|].
    destruct (validateSalary (Salary emp)); [done|].
    by case_bool_decide.
  - unfold UpdatePerformance, locked, history. simpl.
    destruct (validateRating rating); [done|].
    destruct (employees es !! id); [|done]. simpl.
    unfold send_or_skip, has_room. simpl.
    by destruct (_ <? chanCap).
  - unfold GetEmployee, rlocked. simpl. by destruct (employees es !! id).
Qed.

Lemma Shutdown_store_witness :
  ret (AddEmployee 1 false Scenario.ann (set_done true NewEmployeeSystem))
  = None.
Proof.
  destruct (Shutdown_does_not_stop_the_store (text := AsciiText)
              1%Z false Scenario.ann 101%Z 4%float NewEmployeeSystem
              (set_done true NewEmployeeSystem) eq_refl)
    as (_ & -> & _).
  reflexivity.
Defined.

(** ** The statistics and the order of the map *)

(** The count of a position, the time of the snapshot and the set of
    positions that have statistics do not depend on the order in which the
    loop of [selfLearning] visits the map. *)
Theorem count_independent_of_visiting_order now o1 o2 emp es :
  enumerates o1 es → enumerates o2 es →
  let r1 := learn now o1 emp es in
  let r2 := learn now o2 emp es in
  EmployeeCount (ret r1) = EmployeeCount (ret r2) ∧
  StatsLastUpdated (ret r1) = StatsLastUpdated (ret r2) ∧
  dom (positionStats (post r1)) = dom (positionStats (post r2)).
Proof.
  intros H1 H2 r1 r2.
  assert (length (members (Position emp) o1)
          = length (members (Position emp) o2)) as Hlen.
  { unfold members. by rewrite H1, H2. }
  subst r1 r2. rewrite !learn_positionStats.
  unfold learn, locked. rewrite !scan_members, Hlen.
  destruct (0 <? length (members (Position emp) o2)); simpl; [|done].
  split_and!; try done. by rewrite !dom_insert_L.
Qed.

Lemma Trio_enumerated :
  enumerates [Trio.ann; Trio.bob; Trio.cid] Trio.taken.
Proof.
  unfold enumerates. vm_compute. symmetry.
  apply (Permutation_cons_append [Trio.ann; Trio.bob] Trio.cid).
Qed.

Lemma Trio_enumerated_back :
  enumerates [Trio.cid; Trio.bob; Trio.ann] Trio.taken.
Proof. unfold enumerates. vm_compute. apply perm_skip, perm_swap. Qed.

Lemma count_independent_witness :
  EmployeeCount
    (ret (learn 9 [Trio.ann; Trio.bob; Trio.cid] Trio.event Trio.taken))
  = EmployeeCount
      (ret (learn 9 [Trio.cid; Trio.bob; Trio.ann] Trio.event Trio.taken)).
Proof.
  refine (proj1 (count_independent_of_visiting_order 9%Z
                   [Trio.ann; Trio.bob; Trio.cid]
                   [Trio.cid; Trio.bob; Trio.ann] Trio.event Trio.taken _ _)).
  - apply Trio_enumerated.
  - apply Trio_enumerated_back.
Defined.

(** The average of a position does depend on that order.  With three
    stored employees of one position, rated 0.1, 0.2 and 0.3, the goroutine
    can compute two different averages for the same event in the same
    reachable state, according to the order in which [range] yields the
    records: the sum of binary64 numbers depends on the order of the
    additions. *)
Theorem average_depends_on_visiting_order :
  let forth := learn 9 [Trio.ann; Trio.bob; Trio.cid] Trio.event Trio.taken in
  let back := learn 9 [Trio.cid; Trio.bob; Trio.ann] Trio.event Trio.taken in
  reachable Trio.taken ∧
  task Trio.taken = Received Trio.event ∧
  enumerates [Trio.ann; Trio.bob; Trio.cid] Trio.taken ∧
  enumerates [Trio.cid; Trio.bob; Trio.ann] Trio.taken ∧
  step Trio.taken (post forth) ∧ step Trio.taken (post back) ∧
  PrimFloat.ltb (AvgPerformance (ret back)) (AvgPerformance (ret forth))
    = true ∧
  (AvgPerformance <$> positionStats (post forth) !! "Dev")
    ≠ (AvgPerformance <$> positionStats (post back) !! "Dev").
Proof.
  intros forth back.
  pose proof Trio_enumerated as Hforth.
  pose proof Trio_enumerated_back as Hback.
  split; [|split; [reflexivity|]; split; [exact Hforth|];
           split; [exact Hback|]; split; [|split; [|split; [reflexivity|]]]].
  - unfold reachable.
    eapply rtc_l; [apply (step_AddEmployee 1 false (Trio.dev 101 "Ann"))|].
    eapply rtc_l; [apply (step_AddEmployee 2 false (Trio.dev 102 "Bob"))|].
    eapply rtc_l; [apply (step_AddEmployee 3 false (Trio.dev 103 "Cid"))|].
    eapply rtc_l;
      [apply (step_UpdatePerformance 4 101 0x1.999999999999ap-4)|].
    eapply rtc_l;
      [apply (step_UpdatePerformance 5 102 0x1.999999999999ap-3)|].
    eapply rtc_l;
      [apply (step_UpdatePerformance 6 103 0x1.3333333333333p-2)|].
    apply rtc_once.
    apply (step_receive Trio.rated_all Trio.event
             (tail (learningChan Trio.rated_all))); reflexivity.
  - by apply step_learn.
  - by apply step_learn.
  - intros Heq.
    apply (f_equal (λ avg, match avg with
                           | Some x => PrimFloat.ltb x (AvgPerformance (ret forth))
                           | None => false
                           end)) in Heq.
    vm_compute in Heq. discriminate Heq.
Qed.
